(** * Day 18, part 2: the duet interpreter

    A shallow embedding of [Day18p2.cpp]: the instruction set, the machine
    [State], the line parser and the lock-step loop of [solve_part2].

    Conventions.
    - [Value] is [int64_t] and [pc] is [int]; both are modelled as [Z].
      Signed overflow, a zero divisor and an out-of-bounds register index
      have no defined result in C++; the embedding makes that an explicit
      outcome, [Undefined], next to normal return ([Ok]) and a thrown
      exception ([Throw]).
    - [std::queue<Value>] is a [list Value]: [push] appends at the back,
      [front]/[pop] take the head.
    - [size_t] is [N]; [string::npos] is [2^64 - 1]. *)

From Stdlib Require Import ZArith NArith Ascii String List Lia Bool.
From Stdlib Require Import DecimalString DecimalFacts DecimalPos DecimalZ.
From stdpp Require Import base option list.
Import ListNotations.

Local Open Scope string_scope.
Local Open Scope list_scope.
Local Open Scope Z_scope.

(** ** Outcomes of a C++ computation *)

Inductive exn : Set :=
| std_exception        (* throw std::exception() *)
| invalid_argument     (* std::stoi: no conversion could be performed *)
| out_of_range         (* std::stoi: value out of the range of int; substr: pos > size *)
| bad_variant_access.  (* std::get<Register> on a variant holding a Value *)

Inductive result (A : Type) : Type :=
| Ok (a : A)
| Throw (e : exn)
| Undefined.
Arguments Ok {A} a.
Arguments Throw {A} e.
Arguments Undefined {A}.

#[global] Instance result_ret : MRet result := fun A a => Ok a.
#[global] Instance result_bind : MBind result := fun A B f m =>
  match m with
  | Ok a => f a
  | Throw e => Throw e
  | Undefined => Undefined
  end.

(** ** Machine integers *)

Definition INT_MIN : Z := - 2 ^ 31.
Definition INT_MAX : Z := 2 ^ 31 - 1.
Definition INT64_MIN : Z := - 2 ^ 63.
Definition INT64_MAX : Z := 2 ^ 63 - 1.

Definition in_int (z : Z) : bool := (INT_MIN <=? z) && (z <=? INT_MAX).
Definition in_int64 (z : Z) : bool := (INT64_MIN <=? z) && (z <=? INT64_MAX).

(** The result of a signed 64-bit operation whose mathematical value is [z]. *)
Definition checked64 (z : Z) : result Z :=
  if in_int64 z then Ok z else Undefined.

(** The result of a signed 32-bit operation whose mathematical value is [z]. *)
Definition checked32 (z : Z) : result Z :=
  if in_int z then Ok z else Undefined.

(** Conversion of a 64-bit value to [int]: reduction modulo [2^32]. *)
Definition wrap32 (z : Z) : Z := (z + 2 ^ 31) mod 2 ^ 32 - 2 ^ 31.

(** [a % b] on [int64_t]: truncated remainder; no result when [b] is zero
    or when the quotient [a / b] is not representable. *)
Definition rem64 (a b : Z) : result Z :=
  if b =? 0 then Undefined
  else if (a =? INT64_MIN) && (b =? -1) then Undefined
  else Ok (Z.rem a b).

(** ** Data model *)

Definition Value : Set := Z.
Definition Register : Set := ascii.
Bind Scope char_scope with Register.

(** [variant<Value, Register>] *)
Inductive Operand : Set :=
| OpValue (v : Value)
| OpRegister (r : Register).

(** [enum class Intr] *)
Module Intr.
Inductive t : Set := None | Stop | Send | Receive.

Definition eqb (a b : t) : bool :=
  match a, b with
  | None, None | Stop, Stop | Send, Send | Receive, Receive => true
  | _, _ => false
  end.
End Intr.

(** The seven subclasses of [Instr]. *)
Inductive Instr : Set :=
| SndInstr (x : Operand)
| SetInstr (x : Register) (y : Operand)
| AddInstr (x : Register) (y : Operand)
| MulInstr (x : Register) (y : Operand)
| ModInstr (x : Register) (y : Operand)
| RcvInstr (x : Register)
| JgzInstr (x y : Operand).

Definition Program : Set := list Instr.

Record State : Set := mkState {
  pc : Z;
  regs : list Value;       (* array<Value, 26> *)
  program : Program;       (* const Program& *)
  input : list Value;      (* queue<Value> *)
  output : list Value      (* queue<Value> *)
}.

Definition with_pc (s : State) (n : Z) : State :=
  mkState n (regs s) (program s) (input s) (output s).
Definition with_regs (s : State) (r : list Value) : State :=
  mkState (pc s) r (program s) (input s) (output s).
Definition with_input (s : State) (q : list Value) : State :=
  mkState (pc s) (regs s) (program s) q (output s).
Definition with_output (s : State) (q : list Value) : State :=
  mkState (pc s) (regs s) (program s) (input s) q.

(** [State(const Program& program)]: [pc{0}], [regs.fill(0)], empty queues. *)
Definition newState (p : Program) : State :=
  mkState 0 (replicate 26 0) p [] [].

(** The value of a [char] (signed, as on the platforms the code targets). *)
Definition char_val (c : ascii) : Z :=
  let n := Z.of_N (N_of_ascii c) in if n <? 128 then n else n - 256.

(** [r - 'a'] *)
Definition regIndex (r : Register) : Z := char_val r - 97.

Definition valid_index (i : Z) : bool := (0 <=? i) && (i <? 26).

(** [regs[r - 'a'] = v]; indexing a [std::array] out of bounds is undefined. *)
Definition setRegister (s : State) (r : Register) (v : Value) : result State :=
  let i := regIndex r in
  if valid_index i && (Z.to_nat i <? length (regs s))%nat
  then Ok (with_regs s (<[Z.to_nat i := v]> (regs s)))
  else Undefined.

(** [return regs[r - 'a']] *)
Definition getRegister (s : State) (r : Register) : result Value :=
  let i := regIndex r in
  if valid_index i then
    match regs s !! Z.to_nat i with
    | Some v => Ok v
    | None => Undefined
    end
  else Undefined.

Definition evalOperand (s : State) (op : Operand) : result Value :=
  match op with
  | OpValue val => Ok val
  | OpRegister r => getRegister s r
  end.

(** [s.pc++] *)
Definition incr_pc (s : State) : result State :=
  n ← checked32 (pc s + 1); mret (with_pc s n).

(** ** Instruction execution: the seven [execute] overrides *)

Definition execute (i : Instr) (s : State) : result (State * Intr.t) :=
  match i with
  | SndInstr x =>
      v ← evalOperand s x;
      s ← incr_pc (with_output s (output s ++ [v]));
      mret (s, Intr.Send)
  | SetInstr x y =>
      v ← evalOperand s y;
      s ← setRegister s x v;
      s ← incr_pc s;
      mret (s, Intr.None)
  | AddInstr x y =>
      a ← evalOperand s (OpRegister x);
      b ← evalOperand s y;
      v ← checked64 (a + b);
      s ← setRegister s x v;
      s ← incr_pc s;
      mret (s, Intr.None)
  | MulInstr x y =>
      a ← evalOperand s (OpRegister x);
      b ← evalOperand s y;
      v ← checked64 (a * b);
      s ← setRegister s x v;
      s ← incr_pc s;
      mret (s, Intr.None)
  | ModInstr x y =>
      a ← evalOperand s (OpRegister x);
      b ← evalOperand s y;
      v ← rem64 a b;
      s ← setRegister s x v;
      s ← incr_pc s;
      mret (s, Intr.None)
  | RcvInstr x =>
      match input s with
      | [] => mret (s, Intr.Receive)
      | v :: q =>
          s ← setRegister (with_input s q) x v;
          s ← incr_pc s;
          mret (s, Intr.None)
      end
  | JgzInstr x y =>
      c ← evalOperand s x;
      if 0 <? c then
        d ← evalOperand s y;
        n ← checked64 (pc s + d);
        mret (with_pc s (wrap32 n), Intr.None)
      else
        s ← incr_pc s;
        mret (s, Intr.None)
  end.

(** ** Single step *)

Definition executeOne (s : State) : result (State * Intr.t) :=
  if (pc s <? 0) || (pc s >=? Z.of_nat (length (program s)))
  then mret (s, Intr.Stop)
  else
    match program s !! Z.to_nat (pc s) with
    | Some i => execute i s
    | None => Undefined
    end.

(** ** Strings: the [std::string] operations the parser uses *)

Definition npos : N := 2 ^ 64 - 1.

Definition size (s : string) : N := N.of_nat (String.length s).

(** [a - b] on [size_t]. *)
Definition size_sub (a b : N) : N := ((a + 2 ^ 64 - b) mod 2 ^ 64)%N.

(** [s.substr(pos, count)]: throws [out_of_range] when [pos > size()],
    otherwise the characters [pos .. pos + min(count, size() - pos)). *)
Definition substr (s : string) (pos count : N) : result string :=
  if (size s <? pos)%N then Throw out_of_range
  else Ok (substring (N.to_nat pos) (N.to_nat (N.min count (size s - pos))) s).

(** [s.find(c, pos)]: the first index [>= pos] holding [c], or [npos]. *)
Fixpoint find_from (c : ascii) (s : string) (i pos : N) : N :=
  match s with
  | EmptyString => npos
  | String a s' =>
      if (pos <=? i)%N && Ascii.eqb a c then i
      else find_from c s' (i + 1)%N pos
  end.
Definition find (s : string) (c : ascii) (pos : N) : N := find_from c s 0%N pos.

(** [s[0]]: the first character, or the terminating null of an empty string. *)
Definition front_char (s : string) : ascii :=
  match s with
  | String c _ => c
  | EmptyString => Ascii.zero
  end.

(** *** [std::stoi] (base 10), after [strtol]: leading white space is
    skipped, one optional sign is read, then the longest run of decimal
    digits; whatever follows is ignored. No digit: [invalid_argument]. A value
    that does not fit [int]: [out_of_range]. *)

Definition isspace (c : ascii) : bool :=
  let n := N_of_ascii c in (n =? 32)%N || ((9 <=? n)%N && (n <=? 13)%N).

Definition digit_of (c : ascii) : option Z :=
  let n := Z.of_N (N_of_ascii c) in
  if (48 <=? n) && (n <=? 57) then Some (n - 48) else None.

Fixpoint skip_space (s : string) : string :=
  match s with
  | String c s' => if isspace c then skip_space s' else s
  | EmptyString => s
  end.

(** The digits accumulate left to right; [seen] tells whether any was read. *)
Fixpoint read_digits (s : string) (acc : Z) (seen : bool) : option Z :=
  match s with
  | String c s' =>
      match digit_of c with
      | Some d => read_digits s' (acc * 10 + d) true
      | None => if seen then Some acc else None
      end
  | EmptyString => if seen then Some acc else None
  end.

Definition read_sign (s : string) : bool * string :=
  match s with
  | String "-" s' => (true, s')
  | String "+" s' => (false, s')
  | _ => (false, s)
  end.

Definition stoi (s : string) : result Z :=
  let '(neg, ds) := read_sign (skip_space s) in
  match read_digits ds 0 false with
  | None => Throw invalid_argument
  | Some n =>
      let v := if neg then - n else n in
      if in_int v then Ok v else Throw out_of_range
  end.

(** ** Parsing *)

Definition parseOperand (s : string) : result Operand :=
  let c := char_val (front_char s) in
  if (97 <=? c) && (c <=? 122)           (* s[0] >= 'a' && s[0] <= 'z' *)
  then Ok (OpRegister (front_char s))
  else v ← stoi s; mret (OpValue v).

(** [get<Register>(x)] *)
Definition get_Register (x : Operand) : result Register :=
  match x with
  | OpRegister r => Ok r
  | OpValue _ => Throw bad_variant_access
  end.

Definition parseInstr (instrStr : string) : result Instr :=
  is_ ← substr instrStr 0 3;
  let sepPos := find instrStr " " 5 in
  xs ← substr instrStr 4 (size_sub sepPos 4);
  x ← parseOperand xs;
  y ← (if (sepPos =? npos)%N then Ok (OpValue 0)     (* Operand y; *)
       else ys ← substr instrStr (sepPos + 1) npos; parseOperand ys);
  if String.eqb is_ "snd" then Ok (SndInstr x)
  else if String.eqb is_ "set" then r ← get_Register x; mret (SetInstr r y)
  else if String.eqb is_ "add" then r ← get_Register x; mret (AddInstr r y)
  else if String.eqb is_ "mul" then r ← get_Register x; mret (MulInstr r y)
  else if String.eqb is_ "mod" then r ← get_Register x; mret (ModInstr r y)
  else if String.eqb is_ "rcv" then r ← get_Register x; mret (RcvInstr r)
  else if String.eqb is_ "jgz" then Ok (JgzInstr x y)
  else Throw std_exception.

Fixpoint parseProgram_from (lines : list string) (p : Program) : result Program :=
  match lines with
  | [] => Ok p
  | line :: rest =>
      instr ← parseInstr line;
      parseProgram_from rest (p ++ [instr])
  end.
Definition parseProgram (lines : list string) : result Program :=
  parseProgram_from lines [].

(** ** The scheduler: [solve_part2] *)

(** [while(!src.output.empty()) { dst.input.push(src.output.front());
    src.output.pop(); }]; one element leaves the queue per iteration, so
    [length (output src)] iterations run the loop to its end. *)
Fixpoint transfer (n : nat) (src dst : State) : State * State :=
  match n, output src with
  | S n', v :: q =>
      transfer n' (with_output src q) (with_input dst (input dst ++ [v]))
  | _, _ => (src, dst)
  end.
Definition drain (src dst : State) : State * State :=
  transfer (length (output src)) src dst.

(** The same loop with [p1SendCount++] in front of each move. *)
Fixpoint transfer_count (n : nat) (src dst : State) (cnt : Z)
  : result (State * State * Z) :=
  match n, output src with
  | S n', v :: q =>
      c ← checked32 (cnt + 1);
      transfer_count n' (with_output src q) (with_input dst (input dst ++ [v])) c
  | _, _ => Ok (src, dst, cnt)
  end.
Definition drain_count (src dst : State) (cnt : Z) : result (State * State * Z) :=
  transfer_count (length (output src)) src dst cnt.

(** One pass through the body of [while(true)], up to the two tests. *)
Definition turn (s0 s1 : State) (p1SendCount : Z)
  : result (State * State * Z * Intr.t * Intr.t) :=
  '(s0, r0) ← executeOne s0;
  '(s1, r1) ← executeOne s1;
  let '(s0, s1) := drain s0 s1 in
  '(s1, s0, p1SendCount) ← drain_count s1 s0 p1SendCount;
  mret (s0, s1, p1SendCount, r0, r1).

(** The two tests at the end of the body: the line printed before [break],
    if any. *)
Definition check (r0 r1 : Intr.t) : option string :=
  if Intr.eqb r0 Intr.Receive && Intr.eqb r1 Intr.Receive
  then Some "dead lock"
  else if Intr.eqb r0 Intr.Stop || Intr.eqb r1 Intr.Stop
  then Some "Both programs stopped normally"
  else None.

(** What a finished run leaves: the line printed at the break, the count
    printed after the loop, and the two machines. *)
Record Report : Set := mkReport {
  message : string;
  p1SendCount : Z;
  final0 : State;
  final1 : State
}.

(** [while(true)] run for at most [fuel] turns; [Ok None] when the loop is
    still running after [fuel] turns. *)
Fixpoint loop (fuel : nat) (s0 s1 : State) (cnt : Z) : result (option Report) :=
  match fuel with
  | O => Ok None
  | S fuel' =>
      '(s0', s1', cnt', r0, r1) ← turn s0 s1 cnt;
      match check r0 r1 with
      | Some msg => Ok (Some (mkReport msg cnt' s0' s1'))
      | None => loop fuel' s0' s1' cnt'
      end
  end.

Definition solve_part2 (fuel : nat) (input : list string) : result (option Report) :=
  p ← parseProgram input;
  s0 ← setRegister (newState p) "p"%char 0;
  s1 ← setRegister (newState p) "p"%char 1;
  loop fuel s0 s1 0.

(** ** Observing a run

    The quantities the statements about the scheduler speak of, read off the
    code above. *)

(** The type invariants of [State]: [regs] is an [array<Value, 26>], [pc]
    an [int]. *)
Definition wf_state (s : State) : Prop :=
  length (regs s) = 26%nat /\ INT_MIN <= pc s <= INT_MAX.

(** Register names the parser can produce: ['a'] to ['z']. *)
Definition lowercase (r : Register) : Prop := 97 <= char_val r <= 122.

(** The instruction [executeOne] is about to run, if the counter is in range. *)
Definition current (s : State) : option Instr :=
  if (pc s <? 0) || (pc s >=? Z.of_nat (length (program s))) then None
  else program s !! Z.to_nat (pc s).

(** The signal of the step taken from [s]. *)
Definition signal (s : State) : option Intr.t :=
  match executeOne s with
  | Ok (_, r) => Some r
  | _ => None
  end.

(** The output queue the step from [s] leaves for the drain of that turn. *)
Definition pending (s : State) : list Value :=
  match executeOne s with
  | Ok (s', _) => output s'
  | _ => []
  end.

(** The value the step from [s] sends: the operand of a [snd]. *)
Definition sent (s : State) : list Value :=
  match current s with
  | Some (SndInstr x) =>
      match evalOperand s x with
      | Ok v => [v]
      | _ => []
      end
  | _ => []
  end.

(** The value the step from [s] receives: what a [rcv] that did not block
    leaves in its register. *)
Definition received (s : State) : list Value :=
  match current s, executeOne s with
  | Some (RcvInstr x), Ok (s', Intr.None) =>
      match getRegister s' x with
      | Ok v => [v]
      | _ => []
      end
  | _, _ => []
  end.

(** The states at the start of every turn the loop runs. *)
Fixpoint turns (fuel : nat) (s0 s1 : State) (cnt : Z) : list (State * State) :=
  match fuel with
  | O => []
  | S fuel' =>
      (s0, s1) ::
      match turn s0 s1 cnt with
      | Ok (s0', s1', cnt', r0, r1) =>
          match check r0 r1 with
          | Some _ => []
          | None => turns fuel' s0' s1' cnt'
          end
      | _ => []
      end
  end.

(** The machines and the count once the loop has run [fuel] turns, or has
    left by a [break] before that. *)
Fixpoint after (fuel : nat) (s0 s1 : State) (cnt : Z) : result (State * State * Z) :=
  match fuel with
  | O => Ok (s0, s1, cnt)
  | S fuel' =>
      '(s0', s1', cnt', r0, r1) ← turn s0 s1 cnt;
      match check r0 r1 with
      | Some _ => Ok (s0', s1', cnt')
      | None => after fuel' s0' s1' cnt'
      end
  end.

(** Everything the machine on one side sent, and everything it received,
    over the turns [ts], in order. *)
Definition sends (side : State * State -> State) (ts : list (State * State))
  : list Value :=
  concat (map (fun t => sent (side t)) ts).
Definition receipts (side : State * State -> State) (ts : list (State * State))
  : list Value :=
  concat (map (fun t => received (side t)) ts).

Definition sum_lengths (qs : list (list Value)) : Z :=
  foldr (fun q acc => Z.of_nat (length q) + acc) 0 qs.

(** The two machines [solve_part2] starts from. *)
Definition machine (p : Program) (id : Value) : result State :=
  setRegister (newState p) "p"%char id.

(** Operands and instructions as the parser builds them: register names in
    ['a'..'z'], literals in the range of [int]. *)
Definition operand_ok (o : Operand) : Prop :=
  match o with
  | OpValue v => INT_MIN <= v <= INT_MAX
  | OpRegister r => lowercase r
  end.

Definition instr_ok (i : Instr) : Prop :=
  match i with
  | SndInstr x => operand_ok x
  | SetInstr x y | AddInstr x y | MulInstr x y | ModInstr x y =>
      lowercase x /\ operand_ok y
  | RcvInstr x => lowercase x
  | JgzInstr x y => operand_ok x /\ operand_ok y
  end.

(** Every stored value fits [int64_t]. *)
Definition value_ok (v : Value) : Prop := INT64_MIN <= v <= INT64_MAX.

Definition values_ok (s : State) : Prop :=
  Forall value_ok (regs s) /\ Forall value_ok (input s) /\ Forall value_ok (output s).

(** The mnemonic of each instruction. *)
Definition mnemonic (i : Instr) : string :=
  match i with
  | SndInstr _ => "snd"
  | SetInstr _ _ => "set"
  | AddInstr _ _ => "add"
  | MulInstr _ _ => "mul"
  | ModInstr _ _ => "mod"
  | RcvInstr _ => "rcv"
  | JgzInstr _ _ => "jgz"
  end.

(** The decimal literal that denotes [z]. *)
Definition literal (z : Z) : string := NilZero.string_of_int (Z.to_int z).

(** * Properties *)

(** ** The outcome monad *)

Lemma bind_Ok {A B} (m : result A) (f : A -> result B) (b : B) :
  m ≫= f = Ok b <-> exists a, m = Ok a /\ f a = Ok b.
Proof.
  destruct m as [a| |]; simpl; split.
  - eauto.
  - intros (a' & [= <-] & H). exact H.
  - discriminate.
  - intros (? & ? & _). discriminate.
  - discriminate.
  - intros (? & ? & _). discriminate.
Qed.

Ltac bind_inv H :=
  let a := fresh "a" in
  let E := fresh "E" in
  apply bind_Ok in H; destruct H as (a & E & H).

Lemma checked32_Ok z : in_int z = true -> checked32 z = Ok z.
Proof. unfold checked32. now intros ->. Qed.

Lemma checked32_inv z n : checked32 z = Ok n -> n = z /\ INT_MIN <= z <= INT_MAX.
Proof.
  unfold checked32, in_int.
  destruct (INT_MIN <=? z) eqn:E1; destruct (z <=? INT_MAX) eqn:E2; simpl; try discriminate.
  intros [= <-]. lia.
Qed.

Lemma in_int_true z : INT_MIN <= z <= INT_MAX -> in_int z = true.
Proof. unfold in_int. intros. apply andb_true_intro. split; lia. Qed.

(** ** Registers *)

Lemma lowercase_index r : lowercase r -> valid_index (regIndex r) = true.
Proof.
  unfold lowercase, valid_index, regIndex. intros.
  apply andb_true_intro. split; lia.
Qed.

Lemma lowercase_lt r : lowercase r -> (Z.to_nat (regIndex r) < 26)%nat.
Proof. unfold lowercase, regIndex. lia. Qed.

Lemma regIndex_inj r r' :
  Z.to_nat (regIndex r) = Z.to_nat (regIndex r') -> lowercase r -> lowercase r' -> r = r'.
Proof.
  unfold lowercase, regIndex. intros H L L'.
  assert (Hc : char_val r = char_val r') by lia.
  assert (Hn : N_of_ascii r = N_of_ascii r').
  { pose proof (N_ascii_bounded r). pose proof (N_ascii_bounded r').
    unfold char_val in *. cbv zeta in *.
    destruct (Z.ltb_spec (Z.of_N (N_of_ascii r)) 128);
      destruct (Z.ltb_spec (Z.of_N (N_of_ascii r')) 128); lia. }
  rewrite <- (ascii_N_embedding r), <- (ascii_N_embedding r').
  now rewrite Hn.
Qed.

Lemma setRegister_Ok s r v :
  lowercase r -> length (regs s) = 26%nat ->
  setRegister s r v = Ok (with_regs s (<[Z.to_nat (regIndex r) := v]> (regs s))).
Proof.
  intros L Hlen. unfold setRegister.
  rewrite (lowercase_index _ L). simpl.
  pose proof (lowercase_lt _ L).
  destruct (Nat.ltb_spec (Z.to_nat (regIndex r)) (length (regs s))); [reflexivity | lia].
Qed.

Lemma setRegister_inv s r v s' :
  setRegister s r v = Ok s' ->
  s' = with_regs s (<[Z.to_nat (regIndex r) := v]> (regs s)) /\
  valid_index (regIndex r) = true /\ (Z.to_nat (regIndex r) < length (regs s))%nat.
Proof.
  unfold setRegister.
  destruct (valid_index (regIndex r)) eqn:E; simpl; try discriminate.
  destruct (Nat.ltb_spec (Z.to_nat (regIndex r)) (length (regs s))); try discriminate.
  intros [= <-]. auto.
Qed.

Lemma getRegister_set s r v s' :
  setRegister s r v = Ok s' -> getRegister s' r = Ok v.
Proof.
  intros H. apply setRegister_inv in H as (-> & Hv & Hlt).
  unfold getRegister. rewrite Hv. simpl.
  now rewrite list_lookup_insert_eq.
Qed.

Lemma getRegister_set_other s r r' v s' :
  setRegister s r v = Ok s' -> lowercase r -> lowercase r' -> r <> r' ->
  getRegister s' r' = getRegister s r'.
Proof.
  intros H L L' Hne. apply setRegister_inv in H as (-> & _ & _).
  unfold getRegister. simpl.
  rewrite list_lookup_insert_ne; [reflexivity|].
  intros Heq. apply Hne. now apply regIndex_inj.
Qed.

Lemma getRegister_with_pc s n r : getRegister (with_pc s n) r = getRegister s r.
Proof. reflexivity. Qed.

Lemma incr_pc_inv s s' :
  incr_pc s = Ok s' -> s' = with_pc s (pc s + 1) /\ pc s + 1 <= INT_MAX.
Proof.
  unfold incr_pc. intros H. bind_inv H.
  apply checked32_inv in E as (-> & ?). injection H as <-. split; [reflexivity | lia].
Qed.

Lemma incr_pc_Ok s :
  INT_MIN <= pc s -> pc s < INT_MAX -> incr_pc s = Ok (with_pc s (pc s + 1)).
Proof.
  intros. unfold incr_pc. rewrite checked32_Ok; [reflexivity|].
  apply in_int_true. unfold INT_MIN in *. lia.
Qed.

Lemma current_Some s i :
  current s = Some i ->
  0 <= pc s < Z.of_nat (length (program s)) /\ program s !! Z.to_nat (pc s) = Some i.
Proof.
  unfold current.
  destruct (Z.ltb_spec (pc s) 0); simpl; [discriminate|].
  destruct (Z.geb_spec (pc s) (Z.of_nat (length (program s)))); [discriminate|].
  intros H'. split; [lia | exact H'].
Qed.

Lemma executeOne_current s i : current s = Some i -> executeOne s = execute i s.
Proof.
  unfold current, executeOne.
  destruct ((pc s <? 0) || (pc s >=? Z.of_nat (length (program s)))); [discriminate|].
  now intros ->.
Qed.

Lemma executeOne_no_current s : current s = None -> executeOne s = Ok (s, Intr.Stop).
Proof.
  unfold current, executeOne.
  destruct (Z.ltb_spec (pc s) 0); simpl; [reflexivity|].
  destruct (Z.geb_spec (pc s) (Z.of_nat (length (program s)))); [reflexivity|].
  intros Hn. apply lookup_ge_None in Hn. lia.
Qed.

(** ** Single step *)

(** C1. Outside [0, program length) the step signals [Stop] and returns the
    state it was given, untouched; inside, it is the execution of the
    instruction stored at index [pc], state and signal alike. *)
Theorem executeOne_contract (s : State) :
  (pc s < 0 \/ Z.of_nat (length (program s)) <= pc s ->
   executeOne s = Ok (s, Intr.Stop)) /\
  (0 <= pc s < Z.of_nat (length (program s)) ->
   exists i, program s !! Z.to_nat (pc s) = Some i /\ executeOne s = execute i s).
Proof.
  split; intros H; unfold executeOne.
  - destruct (Z.ltb_spec (pc s) 0); simpl; [reflexivity|].
    destruct (Z.geb_spec (pc s) (Z.of_nat (length (program s)))); [reflexivity | lia].
  - destruct (Z.ltb_spec (pc s) 0); [lia|]. simpl.
    destruct (Z.geb_spec (pc s) (Z.of_nat (length (program s)))); [lia|].
    destruct (program s !! Z.to_nat (pc s)) as [i|] eqn:E.
    + exists i. split; reflexivity.
    + apply lookup_ge_None in E. lia.
Qed.

Lemma executeOne_contract_witness :
  executeOne (mkState 2 (replicate 26 0) [SndInstr (OpValue 7); RcvInstr "a"] [3] [4])
  = Ok (mkState 2 (replicate 26 0) [SndInstr (OpValue 7); RcvInstr "a"] [3] [4], Intr.Stop)
  /\ exists i,
      program (newState [SndInstr (OpValue 7); RcvInstr "a"]) !! 0%nat = Some i /\
      executeOne (newState [SndInstr (OpValue 7); RcvInstr "a"])
      = execute i (newState [SndInstr (OpValue 7); RcvInstr "a"]).
Proof.
  split.
  - apply (proj1 (executeOne_contract
                    (mkState 2 (replicate 26 0) [SndInstr (OpValue 7); RcvInstr "a"] [3] [4]))).
    right. simpl. lia.
  - apply (proj2 (executeOne_contract (newState [SndInstr (OpValue 7); RcvInstr "a"]))).
    simpl. lia.
Defined.

(** ** Receive *)

(** C4. When the instruction at [pc] is [rcv x] and the input queue is
    empty, the step returns the very same state with the signal [Receive], so
    a second step from the state it returned does the same again. When the
    queue is [v :: q], the step leaves [v] in register [x], [q] in the input
    queue, [pc + 1] in the counter, touches nothing else and signals [None]. *)
Theorem rcv_contract (s : State) (x : Register) :
  current s = Some (RcvInstr x) ->
  (input s = [] ->
   exists s1, executeOne s = Ok (s1, Intr.Receive) /\ s1 = s /\
              executeOne s1 = Ok (s, Intr.Receive)) /\
  (forall v q, input s = v :: q ->
     wf_state s -> lowercase x -> pc s < INT_MAX ->
     exists s', executeOne s = Ok (s', Intr.None) /\
       pc s' = pc s + 1 /\ input s' = q /\ getRegister s' x = Ok v /\
       output s' = output s /\ program s' = program s /\
       forall r, lowercase r -> r <> x -> getRegister s' r = getRegister s r).
Proof.
  intros Hc. rewrite (executeOne_current _ _ Hc). split.
  - intros Hin. exists s. rewrite (executeOne_current _ _ Hc).
    simpl. rewrite Hin. auto.
  - intros v q Hin [Hlen Hpc] Lx Hmax. simpl. rewrite Hin.
    rewrite setRegister_Ok by (simpl; assumption). simpl.
    rewrite incr_pc_Ok by (simpl; lia). simpl.
    eexists. split; [reflexivity|]. simpl.
    repeat split.
    + unfold getRegister. simpl. rewrite (lowercase_index _ Lx).
      rewrite list_lookup_insert_eq; [reflexivity|].
      pose proof (lowercase_lt _ Lx). lia.
    + intros r Lr Hne. unfold getRegister. simpl.
      rewrite list_lookup_insert_ne; [reflexivity|].
      intros Heq. apply Hne. symmetry. now apply regIndex_inj.
Qed.

Lemma rcv_contract_witness :
  (exists s1,
     executeOne (newState [RcvInstr "a"]) = Ok (s1, Intr.Receive) /\
     s1 = newState [RcvInstr "a"] /\
     executeOne s1 = Ok (newState [RcvInstr "a"], Intr.Receive)) /\
  (exists s',
     executeOne (mkState 0 (replicate 26 0) [RcvInstr "a"] [5; 6] [9]) = Ok (s', Intr.None) /\
     pc s' = 0 + 1 /\ input s' = [6] /\ getRegister s' "a" = Ok 5 /\
     output s' = [9] /\ program s' = [RcvInstr "a"] /\
     forall r, lowercase r -> r <> "a"%char ->
       getRegister s' r
       = getRegister (mkState 0 (replicate 26 0) [RcvInstr "a"] [5; 6] [9]) r).
Proof.
  split.
  - apply (proj1 (rcv_contract (newState [RcvInstr "a"]) "a" eq_refl)). reflexivity.
  - apply (proj2 (rcv_contract (mkState 0 (replicate 26 0) [RcvInstr "a"] [5; 6] [9])
                    "a" eq_refl) 5 [6]).
    + reflexivity.
    + split; [reflexivity | vm_compute; split; discriminate].
    + vm_compute. split; discriminate.
    + reflexivity.
Defined.

Lemma getRegister_Ok_inv s r v :
  getRegister s r = Ok v ->
  valid_index (regIndex r) = true /\ regs s !! Z.to_nat (regIndex r) = Some v.
Proof.
  unfold getRegister. destruct (valid_index (regIndex r)); [|discriminate].
  destruct (regs s !! Z.to_nat (regIndex r)); [|discriminate].
  intros [= ->]. auto.
Qed.

(** ** Modulo *)

(** C7, as stated, fails: on a zero divisor [ModInstr::execute] raises no
    error; the remainder is taken unguarded. *)
Lemma mod_by_zero_raises_nothing :
  evalOperand (newState []) (OpValue 0) = Ok 0 /\
  forall e, execute (ModInstr "a" (OpValue 0)) (newState []) <> Throw e.
Proof. split; [reflexivity | intros e; vm_compute; discriminate]. Qed.

(** C7, amended. [mod x y] takes the remainder with no test of the divisor:
    when [y] evaluates to zero the instruction has no defined outcome and no
    exception is raised; for any other divisor (the pair [INT64_MIN], [-1]
    apart) register [x] receives the truncated remainder, the counter moves
    on by one and the signal is [None]. *)
Theorem mod_contract (s : State) (x : Register) (y : Operand) (a b : Value) :
  evalOperand s (OpRegister x) = Ok a ->
  evalOperand s y = Ok b ->
  (b = 0 -> execute (ModInstr x y) s = Undefined) /\
  (b <> 0 -> ~ (a = INT64_MIN /\ b = -1) -> INT_MIN <= pc s < INT_MAX ->
   exists s', execute (ModInstr x y) s = Ok (s', Intr.None) /\
     getRegister s' x = Ok (Z.rem a b) /\ pc s' = pc s + 1 /\
     input s' = input s /\ output s' = output s).
Proof.
  intros Ha Hb. split.
  - intros ->. unfold execute. rewrite Ha, Hb. reflexivity.
  - intros Hnz Hmin Hpc. unfold execute. rewrite Ha, Hb. simpl.
    assert (Hrem : rem64 a b = Ok (Z.rem a b)).
    { unfold rem64. destruct (Z.eqb_spec b 0); [contradiction|].
      destruct (Z.eqb_spec a INT64_MIN); destruct (Z.eqb_spec b (-1)); simpl;
        try reflexivity. exfalso. auto. }
    rewrite Hrem. simpl.
    apply getRegister_Ok_inv in Ha as [Hv Hl].
    apply lookup_lt_Some in Hl.
    unfold setRegister. rewrite Hv. simpl.
    destruct (Nat.ltb_spec (Z.to_nat (regIndex x)) (length (regs s))); [|lia].
    simpl. rewrite incr_pc_Ok by (simpl; lia). simpl.
    eexists. split; [reflexivity|]. simpl. repeat split.
    unfold getRegister. simpl. rewrite Hv.
    now rewrite list_lookup_insert_eq.
Qed.

Lemma mod_contract_witness :
  (0 = 0 -> execute (ModInstr "a" (OpValue 0)) (newState []) = Undefined) /\
  (exists s',
     execute (ModInstr "b" (OpValue 3))
       (mkState 0 [0; -7] [] [] []) = Ok (s', Intr.None) /\
     getRegister s' "b" = Ok (Z.rem (-7) 3) /\ pc s' = 0 + 1 /\
     input s' = [] /\ output s' = []).
Proof.
  split.
  - apply (proj1 (mod_contract (newState []) "a" (OpValue 0) 0 0 eq_refl eq_refl)).
  - apply (proj2 (mod_contract (mkState 0 [0; -7] [] [] []) "b" (OpValue 3) (-7) 3
                    eq_refl eq_refl)).
    + discriminate.
    + intros [H _]. discriminate H.
    + vm_compute. split; [discriminate | reflexivity].
Defined.

(** ** Construction *)

(** C10. A fresh [State] has counter 0, twenty-six registers all 0 and both
    queues empty; after the preset of [p] to [id], with which [solve_part2]
    makes its two machines, register [p] holds [id] and every other
    register of either machine still holds 0. *)
Theorem newState_zeroed (p : Program) :
  pc (newState p) = 0 /\
  regs (newState p) = replicate 26 0 /\
  length (regs (newState p)) = 26%nat /\
  input (newState p) = [] /\ output (newState p) = [] /\
  program (newState p) = p /\
  (forall r, lowercase r -> getRegister (newState p) r = Ok 0) /\
  (forall id, exists s,
      machine p id = Ok s /\
      getRegister s "p" = Ok id /\
      (forall r, lowercase r -> r <> "p"%char -> getRegister s r = Ok 0) /\
      pc s = 0 /\ input s = [] /\ output s = []) /\
  (forall fuel lines,
      solve_part2 fuel lines =
      (prog ← parseProgram lines; s0 ← machine prog 0; s1 ← machine prog 1;
       loop fuel s0 s1 0)).
Proof.
  assert (Hget : forall r, lowercase r -> getRegister (newState p) r = Ok 0).
  { intros r L. unfold getRegister. rewrite (lowercase_index _ L).
    change (regs (newState p)) with (replicate 26%nat 0).
    rewrite lookup_replicate_2; [reflexivity|]. now apply lowercase_lt. }
  repeat split; try reflexivity; try exact Hget.
  intros id.
  assert (Lp : lowercase "p") by (vm_compute; split; discriminate).
  exists (with_regs (newState p) (<[Z.to_nat (regIndex "p") := id]> (regs (newState p)))).
  assert (Hset : machine p id
                 = Ok (with_regs (newState p)
                         (<[Z.to_nat (regIndex "p") := id]> (regs (newState p)))))
    by (apply setRegister_Ok; [exact Lp | reflexivity]).
  split; [exact Hset|]. split; [exact (getRegister_set _ _ _ _ Hset)|].
  split; [|repeat split].
  intros r L Hne.
  rewrite (getRegister_set_other _ _ _ _ _ Hset Lp L) by congruence.
  now apply Hget.
Qed.

Lemma newState_zeroed_witness :
  getRegister (newState [SndInstr (OpRegister "p")]) "q" = Ok 0 /\
  exists s, machine [SndInstr (OpRegister "p")] 1 = Ok s /\
            getRegister s "p" = Ok 1 /\
            getRegister s "a" = Ok 0.
Proof.
  pose proof (newState_zeroed [SndInstr (OpRegister "p")])
    as (_ & _ & _ & _ & _ & _ & Hget & Hm & _).
  split.
  - apply Hget. vm_compute. split; discriminate.
  - destruct (Hm 1) as (s & Hs & Hp & Hothers & _).
    exists s. split; [exact Hs|]. split; [exact Hp|].
    apply Hothers; [vm_compute; split; discriminate | discriminate].
Defined.

(** ** Strings *)

Lemma substring_all (s : string) : substring 0 (String.length s) s = s.
Proof. induction s as [|c s IH]; simpl; [reflexivity | now rewrite IH]. Qed.

Lemma find_from_absent (c : ascii) (s : string) (i pos : N) :
  (forall n, String.get n s <> Some c) -> find_from c s i pos = npos.
Proof.
  revert i. induction s as [|a s IH]; intros i H; simpl; [reflexivity|].
  destruct (Ascii.eqb_spec a c) as [->|Hne].
  - exfalso. apply (H 0%nat). reflexivity.
  - rewrite andb_false_r. apply IH. intros n. apply (H (S n)).
Qed.

Lemma size_String c s : size (String c s) = (size s + 1)%N.
Proof. unfold size. simpl String.length. lia. Qed.

(** The three reads [parseInstr] makes of a line that carries one operand
    token after a three-letter mnemonic and a separator. *)
Lemma one_operand_reads (a b c d : ascii) (tok : string) :
  (forall n, String.get n tok <> Some " "%char) ->
  (size tok < npos - 4)%N ->
  let line := String a (String b (String c (String d tok))) in
  substr line 0 3 = Ok (String a (String b (String c ""))) /\
  find line " " 5 = npos /\
  substr line 4 (size_sub npos 4) = Ok tok.
Proof.
  intros Hsp Hsz line.
  assert (Hline : size line = (size tok + 4)%N).
  { unfold line. rewrite !size_String. lia. }
  repeat split.
  - unfold substr. rewrite Hline.
    destruct (N.ltb_spec (size tok + 4) 0); [lia|].
    replace (N.min 3 (size tok + 4 - 0)) with 3%N by lia. reflexivity.
  - unfold find, line. simpl. now apply find_from_absent.
  - unfold substr. rewrite Hline.
    destruct (N.ltb_spec (size tok + 4) 4); [lia|].
    change (size_sub npos 4) with (npos - 4)%N.
    replace (N.min (npos - 4) (size tok + 4 - 4)) with (size tok) by lia.
    unfold size, line. rewrite Nat2N.id. simpl. f_equal. apply substring_all.
Qed.

(** ** Parsing a line that lacks its second operand *)

(** C6, as stated, fails: [set a] has one operand token and parses. *)
Lemma set_with_one_operand_parses :
  parseInstr "set a" = Ok (SetInstr "a" (OpValue 0)).
Proof. reflexivity. Qed.

(** C6, amended. A line made of a two-operand mnemonic and a single operand
    token is not rejected for the operand it lacks: the second operand is the
    default [Operand], the literal 0. Whenever the token parses to [x], [jgz]
    yields [JgzInstr x 0], and [set], [add], [mul], [mod] yield their
    instruction on register [x] and 0 when [x] is a register (and
    [bad_variant_access] when it is a literal). *)
Theorem one_operand_line (tok : string) (x : Operand) :
  (forall n, String.get n tok <> Some " "%char) ->
  (size tok < npos - 4)%N ->
  parseOperand tok = Ok x ->
  parseInstr (String "j" (String "g" (String "z" (String " " tok))))
  = Ok (JgzInstr x (OpValue 0)) /\
  parseInstr (String "s" (String "e" (String "t" (String " " tok))))
  = (r ← get_Register x; mret (SetInstr r (OpValue 0))) /\
  parseInstr (String "a" (String "d" (String "d" (String " " tok))))
  = (r ← get_Register x; mret (AddInstr r (OpValue 0))) /\
  parseInstr (String "m" (String "u" (String "l" (String " " tok))))
  = (r ← get_Register x; mret (MulInstr r (OpValue 0))) /\
  parseInstr (String "m" (String "o" (String "d" (String " " tok))))
  = (r ← get_Register x; mret (ModInstr r (OpValue 0))).
Proof.
  intros Hsp Hsz Hx.
  repeat split; unfold parseInstr;
    match goal with
    | |- context [substr (String ?a (String ?b (String ?c (String ?d tok)))) 0 3] =>
        destruct (one_operand_reads a b c d tok Hsp Hsz) as (-> & -> & ->)
    end;
    cbn [mbind result_bind]; rewrite Hx; reflexivity.
Qed.

Lemma one_operand_line_witness :
  parseInstr "jgz a" = Ok (JgzInstr (OpRegister "a") (OpValue 0)) /\
  parseInstr "set a" = Ok (SetInstr "a" (OpValue 0)) /\
  parseInstr "add a" = Ok (AddInstr "a" (OpValue 0)) /\
  parseInstr "mul a" = Ok (MulInstr "a" (OpValue 0)) /\
  parseInstr "mod a" = Ok (ModInstr "a" (OpValue 0)).
Proof.
  apply (one_operand_line "a" (OpRegister "a")).
  - intros [|[|n]]; simpl; discriminate.
  - reflexivity.
  - reflexivity.
Defined.

(** ** Integer literals *)

Lemma digit_of_range c d : digit_of c = Some d -> 48 <= Z.of_N (N_of_ascii c) <= 57.
Proof.
  unfold digit_of. cbv zeta.
  destruct (Z.leb_spec 48 (Z.of_N (N_of_ascii c)));
    destruct (Z.leb_spec (Z.of_N (N_of_ascii c)) 57); simpl; try discriminate.
  lia.
Qed.

Lemma uint_head (u : Decimal.uint) :
  u <> Decimal.Nil ->
  exists c rest d, NilEmpty.string_of_uint u = String c rest /\ digit_of c = Some d.
Proof.
  destruct u; [contradiction | ..]; intros _; simpl; eauto.
Qed.

Lemma read_digits_acc (u : Decimal.uint) (acc : positive) :
  read_digits (NilEmpty.string_of_uint u) (Z.pos acc) true
  = Some (Z.pos (Pos.of_uint_acc u acc)).
Proof.
  revert acc.
  induction u as [|u IH|u IH|u IH|u IH|u IH|u IH|u IH|u IH|u IH|u IH]; intros acc;
    [reflexivity | ..];
    cbn [NilEmpty.string_of_uint read_digits Pos.of_uint_acc];
    match goal with
    | |- context [digit_of ?c] =>
        let v := eval vm_compute in (digit_of c) in change (digit_of c) with v
    end;
    cbv iota beta; rewrite <- IH; f_equal; lia.
Qed.

Lemma read_digits_uint (u : Decimal.uint) :
  read_digits (NilEmpty.string_of_uint u) 0 true = Some (Z.of_uint u).
Proof.
  induction u as [|u IH|u IH|u IH|u IH|u IH|u IH|u IH|u IH|u IH|u IH];
    [reflexivity | ..];
    cbn [NilEmpty.string_of_uint read_digits];
    match goal with
    | |- context [digit_of ?c] =>
        let v := eval vm_compute in (digit_of c) in change (digit_of c) with v
    end;
    cbv iota beta.
  - exact IH.
  - exact (read_digits_acc u 1).
  - exact (read_digits_acc u 2).
  - exact (read_digits_acc u 3).
  - exact (read_digits_acc u 4).
  - exact (read_digits_acc u 5).
  - exact (read_digits_acc u 6).
  - exact (read_digits_acc u 7).
  - exact (read_digits_acc u 8).
  - exact (read_digits_acc u 9).
Qed.

Lemma read_digits_started c rest d :
  digit_of c = Some d ->
  read_digits (String c rest) 0 false = read_digits (String c rest) 0 true.
Proof. intros H. simpl. now rewrite H. Qed.

Lemma stoi_digit_first c rest d :
  digit_of c = Some d ->
  stoi (String c rest)
  = match read_digits (String c rest) 0 true with
    | Some n => if in_int n then Ok n else Throw out_of_range
    | None => Throw invalid_argument
    end
  /\ parseOperand (String c rest) = (v ← stoi (String c rest); mret (OpValue v)).
Proof.
  intros H.
  destruct c as [[] [] [] [] [] [] [] []];
    try (vm_compute in H; discriminate H); split; reflexivity.
Qed.

Lemma stoi_minus s :
  stoi (String "-" s)
  = match read_digits s 0 false with
    | Some n => if in_int (- n) then Ok (- n) else Throw out_of_range
    | None => Throw invalid_argument
    end
  /\ parseOperand (String "-" s) = (v ← stoi (String "-" s); mret (OpValue v)).
Proof. split; reflexivity. Qed.

Lemma stoi_plus s :
  stoi (String "+" s)
  = match read_digits s 0 false with
    | Some n => if in_int n then Ok n else Throw out_of_range
    | None => Throw invalid_argument
    end
  /\ parseOperand (String "+" s) = (v ← stoi (String "+" s); mret (OpValue v)).
Proof. split; reflexivity. Qed.

(** [stoi] on the digits of [u], bare or behind a sign. *)
Lemma stoi_uint (u : Decimal.uint) :
  u <> Decimal.Nil ->
  let s := NilEmpty.string_of_uint u in
  let n := Z.of_uint u in
  parseOperand s = (if in_int n then Ok (OpValue n) else Throw out_of_range) /\
  parseOperand (String "+" s) = (if in_int n then Ok (OpValue n) else Throw out_of_range) /\
  parseOperand (String "-" s)
  = (if in_int (- n) then Ok (OpValue (- n)) else Throw out_of_range).
Proof.
  intros Hu s n. subst s n.
  destruct (uint_head u Hu) as (c & rest & d & Hs & Hd).
  pose proof (read_digits_uint u) as Hr.
  pose proof (read_digits_started c rest d Hd) as Hst.
  rewrite Hs in *.
  destruct (stoi_digit_first c rest d Hd) as [E1 E2].
  destruct (stoi_minus (String c rest)) as [E3 E4].
  destruct (stoi_plus (String c rest)) as [E5 E6].
  rewrite E2, E4, E6, E1, E3, E5, Hst, Hr.
  repeat split.
  - now destruct (in_int (Z.of_uint u)).
  - now destruct (in_int (Z.of_uint u)).
  - now destruct (in_int (- Z.of_uint u)).
Qed.

Lemma literal_cases (z : Z) :
  exists u, u <> Decimal.Nil /\
    ((0 <= z /\ z = Z.of_uint u /\ literal z = NilEmpty.string_of_uint u) \/
     (z < 0 /\ z = - Z.of_uint u /\ literal z = String "-" (NilEmpty.string_of_uint u))).
Proof.
  destruct z as [|p|p].
  - exists (Decimal.D0 Decimal.Nil). split; [discriminate|]. left. repeat split. lia.
  - exists (Pos.to_uint p). split; [apply Unsigned.to_uint_nonnil|]. left.
    split; [lia|]. split.
    + unfold Z.of_uint. now rewrite Unsigned.of_to.
    + unfold literal. simpl.
      pose proof (Unsigned.to_uint_nonnil p).
      destruct (Pos.to_uint p); [contradiction | reflexivity ..].
  - exists (Pos.to_uint p). split; [apply Unsigned.to_uint_nonnil|]. right.
    split; [lia|]. split.
    + unfold Z.of_uint. now rewrite Unsigned.of_to.
    + unfold literal. simpl.
      pose proof (Unsigned.to_uint_nonnil p).
      destruct (Pos.to_uint p); [contradiction | reflexivity ..].
Qed.

Lemma in_int_false z : z < INT_MIN \/ INT_MAX < z -> in_int z = false.
Proof.
  unfold in_int. intros [H|H].
  - destruct (Z.leb_spec INT_MIN z); [lia | reflexivity].
  - destruct (Z.leb_spec z INT_MAX); [lia | apply andb_false_r].
Qed.

(** C8, as stated, fails: [2147483648] fits 64 bits and is refused. *)
Lemma literal_beyond_int_refused :
  in_int64 2147483648 = true /\
  literal 2147483648 = "2147483648" /\
  parseOperand "2147483648" = Throw out_of_range.
Proof. repeat split. Qed.

(** C8, amended. An operand token that does not start with a lowercase
    letter is read by [stoi] as a signed 32-bit literal: the decimal literal
    of every [z] in the range of [int] parses to exactly [z], also behind a
    leading [+]; the literal of any other [z] is refused with
    [out_of_range], however well it fits 64 bits. A token that starts with
    a lowercase letter is that register, whatever follows the letter. *)
Theorem parseOperand_literal (z : Z) :
  (INT_MIN <= z <= INT_MAX -> parseOperand (literal z) = Ok (OpValue z)) /\
  (0 <= z <= INT_MAX -> parseOperand (String "+" (literal z)) = Ok (OpValue z)) /\
  (z < INT_MIN \/ INT_MAX < z -> parseOperand (literal z) = Throw out_of_range) /\
  (forall c rest, lowercase c -> parseOperand (String c rest) = Ok (OpRegister c)).
Proof.
  assert (Hreg : forall c rest,
             lowercase c -> parseOperand (String c rest) = Ok (OpRegister c)).
  { intros c rest [L1 L2]. unfold parseOperand. simpl front_char.
    destruct (Z.leb_spec 97 (char_val c)); [|lia].
    destruct (Z.leb_spec (char_val c) 122); [reflexivity | lia]. }
  destruct (literal_cases z) as (u & Hu & [(Hz & Hv & Hl) | (Hz & Hv & Hl)]);
    destruct (stoi_uint u Hu) as (P0 & P1 & P2); rewrite Hl.
  - rewrite P0, P1, <- Hv. repeat split; try exact Hreg; intros H.
    + now rewrite in_int_true.
    + rewrite in_int_true; [reflexivity|]. unfold INT_MIN. lia.
    + now rewrite in_int_false.
  - rewrite P2, <- Hv. repeat split; try exact Hreg; intros H.
    + now rewrite in_int_true.
    + lia.
    + now rewrite in_int_false.
Qed.

Lemma parseOperand_literal_witness :
  parseOperand (literal (-2147483648)) = Ok (OpValue (-2147483648)) /\
  parseOperand (String "+" (literal 2147483647)) = Ok (OpValue 2147483647) /\
  parseOperand (literal 9223372036854775807) = Throw out_of_range /\
  parseOperand "ab" = Ok (OpRegister "a").
Proof.
  split; [|split; [|split]].
  - apply (proj1 (parseOperand_literal (-2147483648))). vm_compute. split; discriminate.
  - apply (proj1 (proj2 (parseOperand_literal 2147483647))). vm_compute. split; discriminate.
  - apply (proj1 (proj2 (proj2 (parseOperand_literal 9223372036854775807)))).
    right. reflexivity.
  - apply (proj2 (proj2 (proj2 (parseOperand_literal 0)))).
    vm_compute. split; discriminate.
Defined.

(** ** The drains *)

Lemma transfer_all (n : nat) (src dst : State) :
  n = length (output src) ->
  transfer n src dst
  = (with_output src [], with_input dst (input dst ++ output src)).
Proof.
  revert src dst. induction n as [|n IH]; intros src dst Hn.
  - destruct src as [c r p i o]. simpl in *.
    destruct o; [|discriminate]. unfold with_input. simpl.
    rewrite app_nil_r. now destruct dst.
  - destruct src as [c r p i o]. simpl in *.
    destruct o as [|v q]; [discriminate|]. injection Hn as Hn.
    rewrite IH by exact Hn. unfold with_output, with_input. simpl.
    now rewrite <- app_assoc.
Qed.

Lemma drain_all (src dst : State) :
  drain src dst = (with_output src [], with_input dst (input dst ++ output src)).
Proof. now apply transfer_all. Qed.

Lemma transfer_count_all (n : nat) (src dst : State) (cnt : Z) src' dst' cnt' :
  n = length (output src) ->
  transfer_count n src dst cnt = Ok (src', dst', cnt') ->
  src' = with_output src [] /\
  dst' = with_input dst (input dst ++ output src) /\
  cnt' = cnt + Z.of_nat (length (output src)).
Proof.
  revert src dst cnt. induction n as [|n IH]; intros src dst cnt Hn H.
  - destruct src as [c r p i o]. simpl in *.
    destruct o; [|discriminate]. injection H as <- <- <-.
    unfold with_input, with_output. simpl. rewrite app_nil_r.
    repeat split; [now destruct dst | lia].
  - destruct src as [c r p i o]. simpl in *.
    destruct o as [|v q]; [discriminate|]. injection Hn as Hn.
    bind_inv H. apply checked32_inv in E as (-> & _).
    apply IH in H as (-> & -> & ->); [|exact Hn].
    unfold with_output, with_input. simpl. rewrite <- app_assoc.
    repeat split. lia.
Qed.

Lemma drain_count_all (src dst : State) (cnt : Z) src' dst' cnt' :
  drain_count src dst cnt = Ok (src', dst', cnt') ->
  src' = with_output src [] /\
  dst' = with_input dst (input dst ++ output src) /\
  cnt' = cnt + Z.of_nat (length (output src)).
Proof. now apply transfer_count_all. Qed.

(** ** One turn *)

Lemma turn_inv s0 s1 cnt s0' s1' cnt' r0 r1 :
  turn s0 s1 cnt = Ok (s0', s1', cnt', r0, r1) ->
  exists m0 m1,
    executeOne s0 = Ok (m0, r0) /\ executeOne s1 = Ok (m1, r1) /\
    s0' = with_input (with_output m0 []) (input m0 ++ output m1) /\
    s1' = with_output (with_input m1 (input m1 ++ output m0)) [] /\
    cnt' = cnt + Z.of_nat (length (output m1)).
Proof.
  unfold turn. intros H.
  bind_inv H. destruct a as [m0 q0].
  bind_inv H. destruct a as [m1 q1].
  rewrite drain_all in H.
  bind_inv H. destruct a as [[a1 a0] c].
  apply drain_count_all in E1 as (-> & -> & ->).
  injection H as <- <- <- <- <-.
  exists m0, m1. repeat split; assumption.
Qed.

Lemma turn_signal s0 s1 cnt s0' s1' cnt' r0 r1 :
  turn s0 s1 cnt = Ok (s0', s1', cnt', r0, r1) ->
  signal s0 = Some r0 /\ signal s1 = Some r1 /\
  cnt' = cnt + Z.of_nat (length (pending s1)) /\
  output s0' = [] /\ output s1' = [].
Proof.
  intros H. apply turn_inv in H as (m0 & m1 & E0 & E1 & -> & -> & ->).
  unfold signal, pending. rewrite E0, E1. repeat split.
Qed.

Lemma check_dead_lock r0 r1 msg :
  check r0 r1 = Some msg ->
  (msg = "dead lock" <-> r0 = Intr.Receive /\ r1 = Intr.Receive).
Proof.
  destruct r0, r1; simpl; intros [= <-]; split;
    try discriminate; try (intros [? ?]; discriminate); auto.
Qed.

(** ** The loop *)

Lemma loop_more_fuel fuel fuel' s0 s1 cnt rep :
  loop fuel s0 s1 cnt = Ok (Some rep) -> (fuel <= fuel')%nat ->
  loop fuel' s0 s1 cnt = Ok (Some rep).
Proof.
  revert fuel' s0 s1 cnt.
  induction fuel as [|fuel IH]; intros fuel' s0 s1 cnt H Hle; [discriminate|].
  destruct fuel' as [|fuel']; [lia|].
  simpl in *. destruct (turn s0 s1 cnt) as [[[[[t0 t1] c] r0] r1]| |]; simpl in *;
    try discriminate.
  destruct (check r0 r1); [exact H|]. apply IH; [exact H | lia].
Qed.

Lemma loop_after fuel s0 s1 cnt rep :
  loop fuel s0 s1 cnt = Ok (Some rep) ->
  after fuel s0 s1 cnt = Ok (final0 rep, final1 rep, p1SendCount rep).
Proof.
  revert s0 s1 cnt.
  induction fuel as [|fuel IH]; intros s0 s1 cnt H; [discriminate|].
  simpl in *. destruct (turn s0 s1 cnt) as [[[[[t0 t1] c] r0] r1]| |]; simpl in *;
    try discriminate.
  destruct (check r0 r1).
  - injection H as <-. reflexivity.
  - now apply IH.
Qed.

(** C3. When the loop ends, the count it prints is the count it started
    from (0 in [solve_part2]) plus, summed over every turn it ran, the number
    of values that turn's second drain found in M1's output queue and moved
    to M0's input queue. *)
Theorem p1SendCount_is_values_drained fuel s0 s1 cnt rep :
  loop fuel s0 s1 cnt = Ok (Some rep) ->
  p1SendCount rep
  = cnt + sum_lengths (map (fun t => pending (snd t)) (turns fuel s0 s1 cnt)).
Proof.
  revert s0 s1 cnt.
  induction fuel as [|fuel IH]; intros s0 s1 cnt H; [discriminate|].
  simpl in *.
  destruct (turn s0 s1 cnt) as [[[[[t0 t1] c] r0] r1]| |] eqn:Et; simpl in *;
    try discriminate.
  apply turn_signal in Et as (_ & _ & -> & _ & _).
  destruct (check r0 r1).
  - injection H as <-. simpl. lia.
  - rewrite (IH _ _ _ H). lia.
Qed.

Lemma p1SendCount_is_values_drained_witness :
  p1SendCount
    (mkReport "Both programs stopped normally" 1
       (mkState 1 (replicate 26 0) [SndInstr (OpValue 4)] [4] [])
       (mkState 1 (replicate 26 0) [SndInstr (OpValue 4)] [4] []))
  = 0 + sum_lengths
          (map (fun t => pending (snd t))
             (turns 2 (newState [SndInstr (OpValue 4)])
                (newState [SndInstr (OpValue 4)]) 0)).
Proof.
  apply (p1SendCount_is_values_drained 2
           (newState [SndInstr (OpValue 4)]) (newState [SndInstr (OpValue 4)]) 0).
  reflexivity.
Defined.

(** C2. When the loop ends with a report, the report is made on the last
    turn it ran, after both drains of that turn (both output queues are
    empty), and its line is [dead lock] exactly when the two steps of that
    turn both signalled [Receive]; on every earlier turn the two tests found
    nothing to report. *)
Theorem dead_lock_only_when_both_receive fuel s0 s1 cnt rep :
  loop fuel s0 s1 cnt = Ok (Some rep) ->
  exists earlier t0 t1 r0 r1,
    turns fuel s0 s1 cnt = earlier ++ [(t0, t1)] /\
    signal t0 = Some r0 /\ signal t1 = Some r1 /\
    check r0 r1 = Some (message rep) /\
    (message rep = "dead lock" <-> r0 = Intr.Receive /\ r1 = Intr.Receive) /\
    output (final0 rep) = [] /\ output (final1 rep) = [] /\
    Forall (fun u => exists q0 q1,
                signal (fst u) = Some q0 /\ signal (snd u) = Some q1 /\
                check q0 q1 = None /\
                ~ (q0 = Intr.Receive /\ q1 = Intr.Receive)) earlier.
Proof.
  revert s0 s1 cnt.
  induction fuel as [|fuel IH]; intros s0 s1 cnt H; [discriminate|].
  simpl in *.
  destruct (turn s0 s1 cnt) as [[[[[t0 t1] c] r0] r1]| |] eqn:Et; simpl in *;
    try discriminate.
  apply turn_signal in Et as (Hs0 & Hs1 & _ & Ho0 & Ho1).
  destruct (check r0 r1) as [msg|] eqn:Ec.
  - injection H as <-. exists [], s0, s1, r0, r1. simpl.
    split; [reflexivity|]. split; [exact Hs0|]. split; [exact Hs1|].
    split; [exact Ec|]. split; [exact (check_dead_lock _ _ _ Ec)|].
    split; [exact Ho0|]. split; [exact Ho1|]. constructor.
  - destruct (IH _ _ _ H) as (earlier & u0 & u1 & q0 & q1 & Ht & R).
    exists ((s0, s1) :: earlier), u0, u1, q0, q1.
    rewrite Ht. split; [reflexivity|].
    destruct R as (R1 & R2 & R3 & R4 & R5 & R6 & Hall).
    do 6 (split; [assumption|]).
    constructor; [|exact Hall].
    exists r0, r1. simpl.
    split; [exact Hs0|]. split; [exact Hs1|]. split; [exact Ec|].
    intros [-> ->]. discriminate Ec.
Qed.

Lemma dead_lock_only_when_both_receive_witness :
  exists earlier t0 t1 r0 r1,
    turns 5 (newState [RcvInstr "a"]) (newState [RcvInstr "a"]) 0
    = earlier ++ [(t0, t1)] /\
    signal t0 = Some r0 /\ signal t1 = Some r1 /\
    check r0 r1 = Some "dead lock" /\
    ("dead lock" = "dead lock" <-> r0 = Intr.Receive /\ r1 = Intr.Receive) /\
    output (newState [RcvInstr "a"]) = [] /\ output (newState [RcvInstr "a"]) = [] /\
    Forall (fun u => exists q0 q1,
                signal (fst u) = Some q0 /\ signal (snd u) = Some q1 /\
                check q0 q1 = None /\
                ~ (q0 = Intr.Receive /\ q1 = Intr.Receive)) earlier.
Proof.
  apply (dead_lock_only_when_both_receive 5
           (newState [RcvInstr "a"]) (newState [RcvInstr "a"]) 0
           (mkReport "dead lock" 0 (newState [RcvInstr "a"]) (newState [RcvInstr "a"]))).
  reflexivity.
Defined.

(** ** The queues across a step *)

Lemma setRegister_frame s r v s' :
  setRegister s r v = Ok s' ->
  pc s' = pc s /\ program s' = program s /\ input s' = input s /\ output s' = output s.
Proof. intros H. apply setRegister_inv in H as (-> & _). repeat split. Qed.

Lemma incr_pc_frame s s' :
  incr_pc s = Ok s' ->
  regs s' = regs s /\ program s' = program s /\ input s' = input s /\ output s' = output s.
Proof. intros H. apply incr_pc_inv in H as (-> & _). repeat split. Qed.

Ltac frame :=
  repeat match goal with
    | H : _ ≫= _ = Ok _ |- _ => bind_inv H
    | H : setRegister _ _ _ = Ok _ |- _ =>
        let F := fresh "F" in
        pose proof (setRegister_frame _ _ _ _ H) as F;
        apply getRegister_set in H; destruct F as (? & ? & ? & ?)
    | H : incr_pc _ = Ok _ |- _ =>
        apply incr_pc_inv in H; destruct H as (-> & ?)
    | H : mret _ = Ok _ |- _ => injection H as <- <-
    | H : Ok _ = Ok _ |- _ => injection H as <- <-
    end.

(** A step appends what it sends to its own output queue and takes what it
    receives from the front of its own input queue; it does nothing else to
    either queue. *)
Lemma step_queues s s' r :
  executeOne s = Ok (s', r) ->
  output s' = output s ++ sent s /\ input s = received s ++ input s'.
Proof.
  intros H. unfold sent, received. rewrite H.
  destruct (current s) as [i|] eqn:Hc.
  - rewrite (executeOne_current _ _ Hc) in H.
    destruct i; simpl in H.
    + frame. rewrite E. simpl. split; reflexivity.
    + frame. simpl. rewrite app_nil_r. split; [assumption | now symmetry].
    + frame. simpl. rewrite app_nil_r. split; [assumption | now symmetry].
    + frame. simpl. rewrite app_nil_r. split; [assumption | now symmetry].
    + frame. simpl. rewrite app_nil_r. split; [assumption | now symmetry].
    + destruct (input s) as [|v q] eqn:Hin.
      * frame. rewrite app_nil_r. split; [reflexivity | now rewrite Hin].
      * frame. simpl. rewrite getRegister_with_pc, E. simpl.
        rewrite app_nil_r. simpl in *. split; [assumption | now f_equal].
    + bind_inv H. destruct (0 <? a).
      * frame. simpl. rewrite app_nil_r. split; reflexivity.
      * frame. simpl. rewrite app_nil_r. split; reflexivity.
  - rewrite (executeOne_no_current _ Hc) in H. injection H as <- <-.
    rewrite app_nil_r. split; reflexivity.
Qed.

(** What one turn does to the two channels. *)
Lemma turn_queues s0 s1 cnt s0' s1' cnt' r0 r1 :
  turn s0 s1 cnt = Ok (s0', s1', cnt', r0, r1) ->
  output s0' = [] /\ output s1' = [] /\
  (input s1 ++ output s0) ++ sent s0 = received s1 ++ input s1' /\
  (input s0 ++ output s1) ++ sent s1 = received s0 ++ input s0'.
Proof.
  intros H. apply turn_inv in H as (m0 & m1 & E0 & E1 & -> & -> & _).
  apply step_queues in E0 as [O0 I0]. apply step_queues in E1 as [O1 I1].
  simpl. rewrite O0, O1, I0, I1.
  repeat split; now rewrite <- !app_assoc.
Qed.

(** ** First in, first out *)

(** C5. Over any number of turns of the loop, what M0 has sent (behind what
    was already on its way to M1) is, value for value and in the same order,
    what M1 has received followed by what still waits for M1; and the same
    from M1 to M0. So with nothing on the way at the start, the [k]-th value
    a machine receives is the [k]-th value its partner sent. *)
Theorem fifo_delivery fuel s0 s1 cnt t0 t1 cnt' :
  after fuel s0 s1 cnt = Ok (t0, t1, cnt') ->
  ((input s1 ++ output s0) ++ sends fst (turns fuel s0 s1 cnt)
   = receipts snd (turns fuel s0 s1 cnt) ++ (input t1 ++ output t0)) /\
  ((input s0 ++ output s1) ++ sends snd (turns fuel s0 s1 cnt)
   = receipts fst (turns fuel s0 s1 cnt) ++ (input t0 ++ output t1)) /\
  (input s1 = [] -> output s0 = [] ->
   forall k v, receipts snd (turns fuel s0 s1 cnt) !! k = Some v ->
               sends fst (turns fuel s0 s1 cnt) !! k = Some v) /\
  (input s0 = [] -> output s1 = [] ->
   forall k v, receipts fst (turns fuel s0 s1 cnt) !! k = Some v ->
               sends snd (turns fuel s0 s1 cnt) !! k = Some v).
Proof.
  intros H.
  assert (Heq :
    (input s1 ++ output s0) ++ sends fst (turns fuel s0 s1 cnt)
    = receipts snd (turns fuel s0 s1 cnt) ++ (input t1 ++ output t0) /\
    (input s0 ++ output s1) ++ sends snd (turns fuel s0 s1 cnt)
    = receipts fst (turns fuel s0 s1 cnt) ++ (input t0 ++ output t1)).
  { revert s0 s1 cnt H.
    induction fuel as [|fuel IH]; intros s0 s1 cnt H.
    - injection H as <- <- <-. unfold sends, receipts. simpl.
      now rewrite !app_nil_r.
    - simpl in H. unfold sends, receipts in *. simpl.
      destruct (turn s0 s1 cnt) as [[[[[u0 u1] c] r0] r1]| |] eqn:Et; simpl in H;
        try discriminate.
      apply turn_queues in Et as (O0 & O1 & A & B).
      destruct (check r0 r1).
      + injection H as <- <- <-. simpl.
        rewrite O0, O1, !app_nil_r. split; assumption.
      + destruct (IH _ _ _ H) as [IA IB].
        rewrite O0, app_nil_r in IA. rewrite O1, app_nil_r in IB.
        split.
        * rewrite app_assoc, A, <- !app_assoc. f_equal. exact IA.
        * rewrite app_assoc, B, <- !app_assoc. f_equal. exact IB. }
  destruct Heq as [HA HB].
  split; [exact HA|]. split; [exact HB|]. split.
  - intros Hi Ho k v Hk. rewrite Hi, Ho in HA. simpl in HA. rewrite HA.
    now apply lookup_app_l_Some.
  - intros Hi Ho k v Hk. rewrite Hi, Ho in HB. simpl in HB. rewrite HB.
    now apply lookup_app_l_Some.
Qed.

Lemma fifo_delivery_witness :
  sends fst
    (turns 3
       (newState [SndInstr (OpValue 5); SndInstr (OpValue 6); RcvInstr "a"; RcvInstr "b"])
       (newState [SndInstr (OpValue 5); SndInstr (OpValue 6); RcvInstr "a"; RcvInstr "b"])
       0)
  = receipts snd
      (turns 3
         (newState [SndInstr (OpValue 5); SndInstr (OpValue 6); RcvInstr "a"; RcvInstr "b"])
         (newState [SndInstr (OpValue 5); SndInstr (OpValue 6); RcvInstr "a"; RcvInstr "b"])
         0)
    ++ [6].
Proof.
  exact (proj1 (fifo_delivery 3
    (newState [SndInstr (OpValue 5); SndInstr (OpValue 6); RcvInstr "a"; RcvInstr "b"])
    (newState [SndInstr (OpValue 5); SndInstr (OpValue 6); RcvInstr "a"; RcvInstr "b"])
    0
    (mkState 3 (5 :: replicate 25 0)
       [SndInstr (OpValue 5); SndInstr (OpValue 6); RcvInstr "a"; RcvInstr "b"] [6] [])
    (mkState 3 (5 :: replicate 25 0)
       [SndInstr (OpValue 5); SndInstr (OpValue 6); RcvInstr "a"; RcvInstr "b"] [6] [])
    2 eq_refl)).
Defined.

(** ** The scenario [snd p], [rcv a] *)

(** C9. The two lines parse to [snd p; rcv a]; started with [p = 0] and
    [p = 1], the machines run three turns: both send their own [p], both
    receive the other's, both find the counter past the end and signal
    [Stop]. The loop leaves by the halt test, with one value sent by each
    machine and delivered to the other, and prints the count 1. Two turns
    are not enough; any number from three on gives this same report. *)
Theorem duet_snd_rcv (fuel : nat) :
  (3 <= fuel)%nat ->
  exists prog m0 m1 rep,
    parseProgram ["snd p"; "rcv a"] = Ok prog /\
    prog = [SndInstr (OpRegister "p"); RcvInstr "a"] /\
    machine prog 0 = Ok m0 /\ machine prog 1 = Ok m1 /\
    solve_part2 fuel ["snd p"; "rcv a"] = Ok (Some rep) /\
    solve_part2 2 ["snd p"; "rcv a"] = Ok None /\
    message rep = "Both programs stopped normally" /\
    p1SendCount rep = 1 /\
    map (fun t => (signal (fst t), signal (snd t))) (turns 3 m0 m1 0)
    = [(Some Intr.Send, Some Intr.Send);
       (Some Intr.None, Some Intr.None);
       (Some Intr.Stop, Some Intr.Stop)] /\
    sends fst (turns 3 m0 m1 0) = [0] /\ receipts snd (turns 3 m0 m1 0) = [0] /\
    sends snd (turns 3 m0 m1 0) = [1] /\ receipts fst (turns 3 m0 m1 0) = [1] /\
    getRegister (final0 rep) "a" = Ok 1 /\ getRegister (final1 rep) "a" = Ok 0 /\
    pc (final0 rep) = 2 /\ pc (final1 rep) = 2 /\
    input (final0 rep) = [] /\ input (final1 rep) = [].
Proof.
  intros Hfuel.
  pose (prog := [SndInstr (OpRegister "p"); RcvInstr "a"]).
  pose (m0 := mkState 0 (<[15%nat := 0]> (replicate 26 0)) prog [] []).
  pose (m1 := mkState 0 (<[15%nat := 1]> (replicate 26 0)) prog [] []).
  pose (rep := mkReport "Both programs stopped normally" 1
                 (mkState 2 (<[0%nat := 1]> (<[15%nat := 0]> (replicate 26 0))) prog [] [])
                 (mkState 2 (<[0%nat := 0]> (<[15%nat := 1]> (replicate 26 0))) prog [] [])).
  exists prog, m0, m1, rep.
  split; [reflexivity|]. split; [reflexivity|].
  split; [reflexivity|]. split; [reflexivity|].
  split.
  - change (solve_part2 fuel ["snd p"; "rcv a"]) with (loop fuel m0 m1 0).
    apply (loop_more_fuel 3); [reflexivity | exact Hfuel].
  - repeat split.
Qed.

Lemma duet_snd_rcv_witness :
  exists prog m0 m1 rep,
    parseProgram ["snd p"; "rcv a"] = Ok prog /\
    prog = [SndInstr (OpRegister "p"); RcvInstr "a"] /\
    machine prog 0 = Ok m0 /\ machine prog 1 = Ok m1 /\
    solve_part2 10 ["snd p"; "rcv a"] = Ok (Some rep) /\
    solve_part2 2 ["snd p"; "rcv a"] = Ok None /\
    message rep = "Both programs stopped normally" /\
    p1SendCount rep = 1 /\
    map (fun t => (signal (fst t), signal (snd t))) (turns 3 m0 m1 0)
    = [(Some Intr.Send, Some Intr.Send);
       (Some Intr.None, Some Intr.None);
       (Some Intr.Stop, Some Intr.Stop)] /\
    sends fst (turns 3 m0 m1 0) = [0] /\ receipts snd (turns 3 m0 m1 0) = [0] /\
    sends snd (turns 3 m0 m1 0) = [1] /\ receipts fst (turns 3 m0 m1 0) = [1] /\
    getRegister (final0 rep) "a" = Ok 1 /\ getRegister (final1 rep) "a" = Ok 0 /\
    pc (final0 rep) = 2 /\ pc (final1 rep) = 2 /\
    input (final0 rep) = [] /\ input (final1 rep) = [].
Proof. apply (duet_snd_rcv 10). lia. Defined.

(** * Further properties of the code *)

(** ** Registers: [State::setRegister], [State::getRegister] *)


(** X1. In a state with its twenty-six registers, writing [v] to a register
    named by a lowercase letter succeeds; the register then reads [v], every
    other register reads what it read before, and counter, program and
    queues are the same. Every lowercase name can be read. *)
Theorem register_write_then_read (s : State) (r : Register) (v : Value) :
  wf_state s -> lowercase r ->
  exists s',
    setRegister s r v = Ok s' /\
    getRegister s' r = Ok v /\
    (forall r', lowercase r' -> r' <> r -> getRegister s' r' = getRegister s r') /\
    (exists old, getRegister s r = Ok old) /\
    pc s' = pc s /\ program s' = program s /\
    input s' = input s /\ output s' = output s /\
    wf_state s'.
Proof.
  intros [Hlen Hpc] L.
  pose proof (setRegister_Ok s r v L Hlen) as Hset.
  eexists. split; [exact Hset|].
  split; [exact (getRegister_set _ _ _ _ Hset)|].
  split.
  { intros r' L' Hne. apply (getRegister_set_other _ _ _ _ _ Hset L L'). congruence. }
  split.
  { unfold getRegister. rewrite (lowercase_index _ L).
    destruct (regs s !! Z.to_nat (regIndex r)) as [old|] eqn:E; [eauto|].
    apply lookup_ge_None in E. pose proof (lowercase_lt _ L). lia. }
  repeat split; simpl; try assumption; try lia.
  now rewrite length_insert.
Qed.

Lemma register_write_then_read_witness :
  exists s',
    setRegister (newState []) "c" 9 = Ok s' /\
    getRegister s' "c" = Ok 9 /\
    (forall r', lowercase r' -> r' <> "c"%char ->
                getRegister s' r' = getRegister (newState []) r') /\
    (exists old, getRegister (newState []) "c" = Ok old) /\
    pc s' = 0 /\ program s' = [] /\ input s' = [] /\ output s' = [] /\
    wf_state s'.
Proof.
  apply (register_write_then_read (newState []) "c" 9).
  - split; [reflexivity | vm_compute; split; discriminate].
  - vm_compute. split; discriminate.
Defined.



(** ** The instructions: [SndInstr], [SetInstr], [AddInstr], [MulInstr], [JgzInstr] *)

Lemma valid_index_lowercase r : valid_index (regIndex r) = true -> lowercase r.
Proof.
  unfold valid_index, lowercase, regIndex. intros H.
  apply andb_prop in H as [H1 H2].
  apply Z.leb_le in H1. apply Z.ltb_lt in H2. lia.
Qed.

Lemma checked64_Ok z : INT64_MIN <= z <= INT64_MAX -> checked64 z = Ok z.
Proof.
  intros H. unfold checked64, in_int64.
  destruct (Z.leb_spec INT64_MIN z); [|lia].
  destruct (Z.leb_spec z INT64_MAX); [reflexivity | lia].
Qed.

Lemma checked64_out z : z < INT64_MIN \/ INT64_MAX < z -> checked64 z = Undefined.
Proof.
  intros H. unfold checked64, in_int64.
  destruct (Z.leb_spec INT64_MIN z); [|reflexivity].
  destruct (Z.leb_spec z INT64_MAX); [lia | reflexivity].
Qed.

Lemma checked64_inv z v : checked64 z = Ok v -> v = z /\ INT64_MIN <= z <= INT64_MAX.
Proof.
  unfold checked64, in_int64.
  destruct (Z.leb_spec INT64_MIN z); destruct (Z.leb_spec z INT64_MAX); simpl;
    try discriminate.
  intros [= <-]. lia.
Qed.

Lemma wrap32_id z : INT_MIN <= z <= INT_MAX -> wrap32 z = z.
Proof.
  unfold INT_MIN, INT_MAX, wrap32. intros H.
  rewrite Z.mod_small; lia.
Qed.

Lemma wrap32_range z : INT_MIN <= wrap32 z <= INT_MAX.
Proof.
  unfold INT_MIN, INT_MAX, wrap32.
  pose proof (Z.mod_pos_bound (z + 2 ^ 31) (2 ^ 32) ltac:(lia)). lia.
Qed.

(** The common tail of the instructions that write a register: store, then
    advance. *)
Lemma store_then_advance (s : State) (x : Register) (v : Value) :
  length (regs s) = 26%nat -> lowercase x -> INT_MIN <= pc s < INT_MAX ->
  exists s',
    (s1 ← setRegister s x v; s2 ← incr_pc s1; mret (s2, Intr.None))
    = Ok (s', Intr.None) /\
    getRegister s' x = Ok v /\
    (forall r, lowercase r -> r <> x -> getRegister s' r = getRegister s r) /\
    pc s' = pc s + 1 /\ program s' = program s /\
    input s' = input s /\ output s' = output s.
Proof.
  intros Hlen L Hpc.
  rewrite (setRegister_Ok s x v L Hlen). cbn [mbind result_bind].
  rewrite incr_pc_Ok by (simpl; lia). cbn [mbind result_bind mret result_ret].
  eexists. split; [reflexivity|]. simpl.
  split.
  { unfold getRegister. simpl. rewrite (lowercase_index _ L).
    rewrite list_lookup_insert_eq; [reflexivity|].
    pose proof (lowercase_lt _ L). lia. }
  split; [|repeat split].
  intros r Lr Hne. unfold getRegister. simpl.
  rewrite list_lookup_insert_ne; [reflexivity|].
  intros Heq. apply Hne. symmetry. now apply regIndex_inj.
Qed.

(** X3. [snd x] appends the value of [x] at the back of the machine's own
    output queue, behind whatever is already there, moves the counter on by
    one and signals [Send]; registers, program and input queue are as
    before. When the counter cannot be incremented the step has no defined
    result. *)
Theorem snd_contract (s : State) (x : Operand) (v : Value) :
  evalOperand s x = Ok v ->
  (INT_MIN <= pc s < INT_MAX ->
   execute (SndInstr x) s
   = Ok (mkState (pc s + 1) (regs s) (program s) (input s) (output s ++ [v]),
         Intr.Send)) /\
  (INT_MAX <= pc s -> execute (SndInstr x) s = Undefined).
Proof.
  intros Hx. unfold execute. rewrite Hx. cbn [mbind result_bind]. split; intros Hpc.
  - rewrite incr_pc_Ok by (simpl; lia). reflexivity.
  - unfold incr_pc, checked32. simpl pc.
    rewrite in_int_false by (right; lia). reflexivity.
Qed.

Lemma snd_contract_witness :
  execute (SndInstr (OpValue 7)) (mkState 0 (replicate 26 0) [] [1] [2; 3])
  = Ok (mkState (0 + 1) (replicate 26 0) [] [1] ([2; 3] ++ [7]), Intr.Send) /\
  execute (SndInstr (OpValue 7)) (mkState 2147483647 (replicate 26 0) [] [] [])
  = Undefined.
Proof.
  split.
  - apply (proj1 (snd_contract (mkState 0 (replicate 26 0) [] [1] [2; 3])
                    (OpValue 7) 7 eq_refl)).
    vm_compute. split; [discriminate | reflexivity].
  - apply (proj2 (snd_contract (mkState 2147483647 (replicate 26 0) [] [] [])
                    (OpValue 7) 7 eq_refl)).
    vm_compute. discriminate.
Defined.

(** X4. [set x y] leaves the value of [y] in register [x] and moves the
    counter on by one; no other register, neither queue and not the program
    changes, and the signal is [None]. *)
Theorem set_contract (s : State) (x : Register) (y : Operand) (v : Value) :
  wf_state s -> lowercase x -> pc s < INT_MAX ->
  evalOperand s y = Ok v ->
  exists s',
    execute (SetInstr x y) s = Ok (s', Intr.None) /\
    getRegister s' x = Ok v /\
    (forall r, lowercase r -> r <> x -> getRegister s' r = getRegister s r) /\
    pc s' = pc s + 1 /\ program s' = program s /\
    input s' = input s /\ output s' = output s.
Proof.
  intros [Hlen Hpc] L Hmax Hy. unfold execute. rewrite Hy. cbn [mbind result_bind].
  apply store_then_advance; [assumption | assumption | lia].
Qed.

Lemma set_contract_witness :
  exists s',
    execute (SetInstr "b" (OpValue 10)) (newState []) = Ok (s', Intr.None) /\
    getRegister s' "b" = Ok 10 /\
    (forall r, lowercase r -> r <> "b"%char ->
               getRegister s' r = getRegister (newState []) r) /\
    pc s' = 0 + 1 /\ program s' = [] /\ input s' = [] /\ output s' = [].
Proof.
  apply (set_contract (newState []) "b" (OpValue 10) 10).
  - split; [reflexivity | vm_compute; split; discriminate].
  - vm_compute. split; discriminate.
  - reflexivity.
  - reflexivity.
Defined.

(** X5. [add x y] leaves the exact sum of register [x] and the value of
    [y] in register [x] when the sum fits 64 bits, with the counter moved on
    by one and nothing else changed; when the sum does not fit, the signed
    addition overflows and the step has no defined result. *)
Theorem add_contract (s : State) (x : Register) (y : Operand) (a b : Value) :
  wf_state s -> pc s < INT_MAX ->
  getRegister s x = Ok a -> evalOperand s y = Ok b ->
  (INT64_MIN <= a + b <= INT64_MAX ->
   exists s',
     execute (AddInstr x y) s = Ok (s', Intr.None) /\
     getRegister s' x = Ok (a + b) /\
     (forall r, lowercase r -> r <> x -> getRegister s' r = getRegister s r) /\
     pc s' = pc s + 1 /\ program s' = program s /\
     input s' = input s /\ output s' = output s) /\
  (a + b < INT64_MIN \/ INT64_MAX < a + b -> execute (AddInstr x y) s = Undefined).
Proof.
  intros [Hlen Hpc] Hmax Hx Hy.
  pose proof (valid_index_lowercase _ (proj1 (getRegister_Ok_inv _ _ _ Hx))) as L.
  unfold execute. change (evalOperand s (OpRegister x)) with (getRegister s x).
  rewrite Hx, Hy. cbn [mbind result_bind].
  split; intros H.
  - rewrite (checked64_Ok _ H). cbn [mbind result_bind].
    apply store_then_advance; [assumption | assumption | lia].
  - now rewrite (checked64_out _ H).
Qed.

Lemma add_contract_witness :
  (exists s',
     execute (AddInstr "a" (OpValue 5)) (mkState 0 (10 :: replicate 25 0) [] [] [])
     = Ok (s', Intr.None) /\
     getRegister s' "a" = Ok (10 + 5) /\
     (forall r, lowercase r -> r <> "a"%char ->
        getRegister s' r = getRegister (mkState 0 (10 :: replicate 25 0) [] [] []) r) /\
     pc s' = 0 + 1 /\ program s' = [] /\ input s' = [] /\ output s' = []) /\
  execute (AddInstr "a" (OpValue 1))
    (mkState 0 (9223372036854775807 :: replicate 25 0) [] [] [])
  = Undefined.
Proof.
  assert (W1 : wf_state (mkState 0 (10 :: replicate 25 0) [] [] []))
    by (split; [reflexivity | vm_compute; split; discriminate]).
  assert (W2 : wf_state (mkState 0 (9223372036854775807 :: replicate 25 0) [] [] []))
    by (split; [reflexivity | vm_compute; split; discriminate]).
  split.
  - apply (proj1 (add_contract (mkState 0 (10 :: replicate 25 0) [] [] [])
                    "a" (OpValue 5) 10 5 W1 eq_refl eq_refl eq_refl)).
    vm_compute. split; discriminate.
  - apply (proj2 (add_contract
                    (mkState 0 (9223372036854775807 :: replicate 25 0) [] [] [])
                    "a" (OpValue 1) 9223372036854775807 1 W2 eq_refl eq_refl eq_refl)).
    right. reflexivity.
Defined.

(** X6. [mul x y] leaves the exact product of register [x] and the value
    of [y] in register [x] when the product fits 64 bits, with the counter
    moved on by one and nothing else changed; when it does not fit, the
    signed multiplication overflows and the step has no defined result. *)
Theorem mul_contract (s : State) (x : Register) (y : Operand) (a b : Value) :
  wf_state s -> pc s < INT_MAX ->
  getRegister s x = Ok a -> evalOperand s y = Ok b ->
  (INT64_MIN <= a * b <= INT64_MAX ->
   exists s',
     execute (MulInstr x y) s = Ok (s', Intr.None) /\
     getRegister s' x = Ok (a * b) /\
     (forall r, lowercase r -> r <> x -> getRegister s' r = getRegister s r) /\
     pc s' = pc s + 1 /\ program s' = program s /\
     input s' = input s /\ output s' = output s) /\
  (a * b < INT64_MIN \/ INT64_MAX < a * b -> execute (MulInstr x y) s = Undefined).
Proof.
  intros [Hlen Hpc] Hmax Hx Hy.
  pose proof (valid_index_lowercase _ (proj1 (getRegister_Ok_inv _ _ _ Hx))) as L.
  unfold execute. change (evalOperand s (OpRegister x)) with (getRegister s x).
  rewrite Hx, Hy. cbn [mbind result_bind].
  split; intros H.
  - rewrite (checked64_Ok _ H). cbn [mbind result_bind].
    apply store_then_advance; [assumption | assumption | lia].
  - now rewrite (checked64_out _ H).
Qed.

Lemma mul_contract_witness :
  (exists s',
     execute (MulInstr "a" (OpValue (-3))) (mkState 0 (10 :: replicate 25 0) [] [] [])
     = Ok (s', Intr.None) /\
     getRegister s' "a" = Ok (10 * -3) /\
     (forall r, lowercase r -> r <> "a"%char ->
        getRegister s' r = getRegister (mkState 0 (10 :: replicate 25 0) [] [] []) r) /\
     pc s' = 0 + 1 /\ program s' = [] /\ input s' = [] /\ output s' = []) /\
  execute (MulInstr "a" (OpValue 2))
    (mkState 0 (9223372036854775807 :: replicate 25 0) [] [] [])
  = Undefined.
Proof.
  assert (W1 : wf_state (mkState 0 (10 :: replicate 25 0) [] [] []))
    by (split; [reflexivity | vm_compute; split; discriminate]).
  assert (W2 : wf_state (mkState 0 (9223372036854775807 :: replicate 25 0) [] [] []))
    by (split; [reflexivity | vm_compute; split; discriminate]).
  split.
  - apply (proj1 (mul_contract (mkState 0 (10 :: replicate 25 0) [] [] [])
                    "a" (OpValue (-3)) 10 (-3) W1 eq_refl eq_refl eq_refl)).
    vm_compute. split; discriminate.
  - apply (proj2 (mul_contract
                    (mkState 0 (9223372036854775807 :: replicate 25 0) [] [] [])
                    "a" (OpValue 2) 9223372036854775807 2 W2 eq_refl eq_refl eq_refl)).
    right. reflexivity.
Defined.

(** X7. [jgz x y] changes nothing but the counter and signals [None]. When
    the value of [x] is positive the counter moves by the value of [y]
    (to [pc + y], whenever that is an [int]); otherwise it moves on by one.
    A taken jump of offset 0 returns the state it was given. *)
Theorem jgz_contract (s : State) (x y : Operand) (c d : Value) :
  wf_state s ->
  evalOperand s x = Ok c -> evalOperand s y = Ok d ->
  (0 < c -> INT_MIN <= pc s + d <= INT_MAX ->
   execute (JgzInstr x y) s
   = Ok (mkState (pc s + d) (regs s) (program s) (input s) (output s), Intr.None)) /\
  (c <= 0 -> pc s < INT_MAX ->
   execute (JgzInstr x y) s
   = Ok (mkState (pc s + 1) (regs s) (program s) (input s) (output s), Intr.None)) /\
  (0 < c -> d = 0 -> execute (JgzInstr x y) s = Ok (s, Intr.None)).
Proof.
  intros [Hlen Hpc] Hx Hy. unfold execute. rewrite Hx. cbn [mbind result_bind].
  assert (Htaken : 0 < c -> INT_MIN <= pc s + d <= INT_MAX ->
            (if 0 <? c
             then d0 ← evalOperand s y; n ← checked64 (pc s + d0);
                  mret (with_pc s (wrap32 n), Intr.None)
             else s1 ← incr_pc s; mret (s1, Intr.None))
            = Ok (mkState (pc s + d) (regs s) (program s) (input s) (output s),
                  Intr.None)).
  { intros Hc Hr. destruct (Z.ltb_spec 0 c); [|lia].
    rewrite Hy. cbn [mbind result_bind].
    rewrite checked64_Ok by (unfold INT_MIN, INT_MAX, INT64_MIN, INT64_MAX in *; lia).
    cbn [mbind result_bind mret result_ret]. now rewrite wrap32_id. }
  split; [exact Htaken|]. split.
  - intros Hc Hmax. destruct (Z.ltb_spec 0 c); [lia|].
    rewrite incr_pc_Ok by lia. reflexivity.
  - intros Hc ->. rewrite Htaken by (try assumption; lia).
    rewrite Z.add_0_r. now destruct s.
Qed.

Lemma jgz_contract_witness :
  execute (JgzInstr (OpValue 1) (OpValue (-2))) (mkState 5 (replicate 26 0) [] [8] [9])
  = Ok (mkState (5 + -2) (replicate 26 0) [] [8] [9], Intr.None) /\
  execute (JgzInstr (OpValue 0) (OpValue (-2))) (mkState 5 (replicate 26 0) [] [8] [9])
  = Ok (mkState (5 + 1) (replicate 26 0) [] [8] [9], Intr.None) /\
  execute (JgzInstr (OpValue 1) (OpValue 0)) (mkState 5 (replicate 26 0) [] [8] [9])
  = Ok (mkState 5 (replicate 26 0) [] [8] [9], Intr.None).
Proof.
  assert (W : wf_state (mkState 5 (replicate 26 0) [] [8] [9]))
    by (split; [reflexivity | vm_compute; split; discriminate]).
  split; [|split].
  - apply (proj1 (jgz_contract (mkState 5 (replicate 26 0) [] [8] [9])
                    (OpValue 1) (OpValue (-2)) 1 (-2) W eq_refl eq_refl)).
    + reflexivity.
    + vm_compute. split; discriminate.
  - apply (proj1 (proj2 (jgz_contract (mkState 5 (replicate 26 0) [] [8] [9])
                           (OpValue 0) (OpValue (-2)) 0 (-2) W eq_refl eq_refl))).
    + vm_compute. discriminate.
    + reflexivity.
  - apply (proj2 (proj2 (jgz_contract (mkState 5 (replicate 26 0) [] [8] [9])
                           (OpValue 1) (OpValue 0) 1 0 W eq_refl eq_refl))).
    + reflexivity.
    + reflexivity.
Defined.

(** ** What every step keeps *)

Lemma execute_shape (i : Instr) (s s' : State) (r : Intr.t) :
  execute i s = Ok (s', r) ->
  program s' = program s /\ length (regs s') = length (regs s) /\
  (INT_MIN <= pc s <= INT_MAX -> INT_MIN <= pc s' <= INT_MAX).
Proof.
  intros H. destruct i; simpl in H.
  - bind_inv H. bind_inv H. injection H as <- <-.
    apply incr_pc_inv in E0 as (-> & ?). simpl in *. repeat split; lia.
  - bind_inv H. bind_inv H. bind_inv H. injection H as <- <-.
    apply setRegister_inv in E0 as (-> & _). apply incr_pc_inv in E1 as (-> & ?).
    simpl in *. rewrite length_insert. repeat split; lia.
  - bind_inv H. bind_inv H. bind_inv H. bind_inv H. bind_inv H. injection H as <- <-.
    apply setRegister_inv in E2 as (-> & _). apply incr_pc_inv in E3 as (-> & ?).
    simpl in *. rewrite length_insert. repeat split; lia.
  - bind_inv H. bind_inv H. bind_inv H. bind_inv H. bind_inv H. injection H as <- <-.
    apply setRegister_inv in E2 as (-> & _). apply incr_pc_inv in E3 as (-> & ?).
    simpl in *. rewrite length_insert. repeat split; lia.
  - bind_inv H. bind_inv H. bind_inv H. bind_inv H. bind_inv H. injection H as <- <-.
    apply setRegister_inv in E2 as (-> & _). apply incr_pc_inv in E3 as (-> & ?).
    simpl in *. rewrite length_insert. repeat split; lia.
  - destruct (input s) as [|v q].
    + injection H as <- <-. auto.
    + bind_inv H. bind_inv H. injection H as <- <-.
      apply setRegister_inv in E as (-> & _). apply incr_pc_inv in E0 as (-> & ?).
      simpl in *. rewrite length_insert. repeat split; lia.
  - bind_inv H. destruct (0 <? a).
    + bind_inv H. bind_inv H. injection H as <- <-. simpl.
      split; [reflexivity|]. split; [reflexivity|]. intros _. apply wrap32_range.
    + bind_inv H. injection H as <- <-.
      apply incr_pc_inv in E0 as (-> & ?). simpl. repeat split; lia.
Qed.

Lemma executeOne_shape (s s' : State) (r : Intr.t) :
  executeOne s = Ok (s', r) ->
  program s' = program s /\ (wf_state s -> wf_state s').
Proof.
  intros H. destruct (current s) as [i|] eqn:Hc.
  - rewrite (executeOne_current _ _ Hc) in H.
    apply execute_shape in H as (Hp & Hl & Hpc).
    split; [exact Hp|]. intros [W1 W2]. split; [congruence | auto].
  - rewrite (executeOne_no_current _ Hc) in H. injection H as <- <-. auto.
Qed.

(** X8. A step never changes the program the machine runs, and it keeps
    the shape of the machine: twenty-six registers, a counter that is an
    [int] (a jump may carry it outside the program, never outside [int]). *)
Theorem step_keeps_shape (s s' : State) (r : Intr.t) :
  executeOne s = Ok (s', r) ->
  wf_state s ->
  program s' = program s /\ length (regs s') = 26%nat /\
  INT_MIN <= pc s' <= INT_MAX.
Proof.
  intros H W. apply executeOne_shape in H as [Hp Hw].
  destruct (Hw W) as [? ?]. auto.
Qed.

Lemma step_keeps_shape_witness :
  program (mkState (-4) (replicate 26 0) [JgzInstr (OpValue 1) (OpValue (-4))] [] [])
  = program (newState [JgzInstr (OpValue 1) (OpValue (-4))]) /\
  length (regs (mkState (-4) (replicate 26 0) [JgzInstr (OpValue 1) (OpValue (-4))] [] []))
  = 26%nat /\
  INT_MIN
  <= pc (mkState (-4) (replicate 26 0) [JgzInstr (OpValue 1) (OpValue (-4))] [] [])
  <= INT_MAX.
Proof.
  apply (step_keeps_shape (newState [JgzInstr (OpValue 1) (OpValue (-4))]) _ Intr.None).
  - reflexivity.
  - split; [reflexivity | vm_compute; split; discriminate].
Defined.

Lemma int_is_int64 v : INT_MIN <= v <= INT_MAX -> value_ok v.
Proof. unfold value_ok, INT_MIN, INT_MAX, INT64_MIN, INT64_MAX. lia. Qed.

Lemma evalOperand_value_ok s o v :
  Forall value_ok (regs s) -> operand_ok o -> evalOperand s o = Ok v -> value_ok v.
Proof.
  intros Hr Ho H. destruct o as [w|r]; simpl in *.
  - injection H as <-. now apply int_is_int64.
  - apply getRegister_Ok_inv in H as [_ Hl].
    exact (Forall_lookup_1 _ _ _ _ Hr Hl).
Qed.

Lemma rem64_value_ok a b v : value_ok b -> rem64 a b = Ok v -> value_ok v.
Proof.
  unfold rem64, value_ok. intros Hb H.
  destruct (Z.eqb_spec b 0); [discriminate|].
  destruct ((a =? INT64_MIN) && (b =? -1)); [discriminate|].
  injection H as <-.
  pose proof (Z.rem_bound_abs a b ltac:(assumption)).
  unfold INT64_MIN, INT64_MAX in *. lia.
Qed.

Lemma store_values_ok s x v s1 s2 :
  values_ok s -> value_ok v ->
  setRegister s x v = Ok s1 -> incr_pc s1 = Ok s2 -> values_ok s2.
Proof.
  intros (Hr & Hi & Ho) Hv H1 H2.
  apply setRegister_inv in H1 as (-> & _). apply incr_pc_inv in H2 as (-> & _).
  unfold values_ok. simpl. repeat split; try assumption.
  now apply Forall_insert.
Qed.

Lemma executeOne_values (s s' : State) (r : Intr.t) :
  Forall instr_ok (program s) -> values_ok s ->
  executeOne s = Ok (s', r) ->
  values_ok s'.
Proof.
  intros Hp Hv H. destruct (current s) as [i|] eqn:Hc.
  - rewrite (executeOne_current _ _ Hc) in H.
    apply current_Some in Hc as [_ Hl].
    pose proof (Forall_lookup_1 _ _ _ _ Hp Hl) as Hi.
    pose proof Hv as (Hr & Hin & Hout).
    destruct i; simpl in H, Hi.
    + bind_inv H. bind_inv H. injection H as <- <-.
      apply incr_pc_inv in E0 as (-> & _).
      pose proof (evalOperand_value_ok _ _ _ Hr Hi E).
      unfold values_ok. simpl. repeat split; try assumption.
      apply Forall_app. split; [assumption | now constructor].
    + destruct Hi as [_ Hy]. bind_inv H. bind_inv H. bind_inv H. injection H as <- <-.
      eapply store_values_ok; [exact Hv | | exact E0 | exact E1].
      exact (evalOperand_value_ok _ _ _ Hr Hy E).
    + destruct Hi as [_ Hy].
      bind_inv H. bind_inv H. bind_inv H. bind_inv H. bind_inv H. injection H as <- <-.
      eapply store_values_ok; [exact Hv | | exact E2 | exact E3].
      apply checked64_inv in E1 as (-> & ?). assumption.
    + destruct Hi as [_ Hy].
      bind_inv H. bind_inv H. bind_inv H. bind_inv H. bind_inv H. injection H as <- <-.
      eapply store_values_ok; [exact Hv | | exact E2 | exact E3].
      apply checked64_inv in E1 as (-> & ?). assumption.
    + destruct Hi as [_ Hy].
      bind_inv H. bind_inv H. bind_inv H. bind_inv H. bind_inv H. injection H as <- <-.
      eapply store_values_ok; [exact Hv | | exact E2 | exact E3].
      eapply rem64_value_ok; [|exact E1].
      exact (evalOperand_value_ok _ _ _ Hr Hy E0).
    + destruct (input s) as [|v q] eqn:Ein.
      * injection H as <- <-. exact Hv.
      * bind_inv H. bind_inv H. injection H as <- <-.
        apply Forall_cons in Hin as [Hv0 Hq].
        eapply (store_values_ok (with_input s q)); [ | exact Hv0 | exact E | exact E0].
        unfold values_ok. simpl. auto.
    + bind_inv H. destruct (0 <? a).
      * bind_inv H. bind_inv H. injection H as <- <-. exact Hv.
      * bind_inv H. injection H as <- <-.
        apply incr_pc_inv in E0 as (-> & _). exact Hv.
  - rewrite (executeOne_no_current _ Hc) in H. injection H as <- <-. exact Hv.
Qed.

(** X9. Values never outgrow [int64_t]: when the literals of the program
    fit (the parser only builds such) and every register and queued value
    fits, then after any step that returns, every register and queued
    value fits again. *)
Theorem step_keeps_values (s s' : State) (r : Intr.t) :
  Forall instr_ok (program s) -> values_ok s ->
  executeOne s = Ok (s', r) ->
  values_ok s'.
Proof. apply executeOne_values. Qed.

Lemma step_keeps_values_witness :
  values_ok (mkState 1 (-1 :: replicate 25 0) [ModInstr "a" (OpValue 3)] [] []).
Proof.
  apply (step_keeps_values
           (mkState 0 (-7 :: replicate 25 0) [ModInstr "a" (OpValue 3)] [] [])
           _ Intr.None).
  - repeat constructor; vm_compute; discriminate.
  - repeat split; repeat constructor; vm_compute; discriminate.
  - reflexivity.
Defined.

(** ** The signals *)

Lemma execute_signal (i : Instr) (s s' : State) (r : Intr.t) :
  execute i s = Ok (s', r) ->
  r = match i with
      | SndInstr _ => Intr.Send
      | RcvInstr _ => match input s with [] => Intr.Receive | _ => Intr.None end
      | _ => Intr.None
      end /\
  (r = Intr.Receive -> s' = s).
Proof.
  intros H. destruct i; simpl in H.
  - bind_inv H. bind_inv H. injection H as <- <-. split; [reflexivity | discriminate].
  - bind_inv H. bind_inv H. bind_inv H. injection H as <- <-.
    split; [reflexivity | discriminate].
  - bind_inv H. bind_inv H. bind_inv H. bind_inv H. bind_inv H. injection H as <- <-.
    split; [reflexivity | discriminate].
  - bind_inv H. bind_inv H. bind_inv H. bind_inv H. bind_inv H. injection H as <- <-.
    split; [reflexivity | discriminate].
  - bind_inv H. bind_inv H. bind_inv H. bind_inv H. bind_inv H. injection H as <- <-.
    split; [reflexivity | discriminate].
  - destruct (input s) as [|v q].
    + injection H as <- <-. auto.
    + bind_inv H. bind_inv H. injection H as <- <-. split; [reflexivity | discriminate].
  - bind_inv H. destruct (0 <? a).
    + bind_inv H. bind_inv H. injection H as <- <-. split; [reflexivity | discriminate].
    + bind_inv H. injection H as <- <-. split; [reflexivity | discriminate].
Qed.

(** X10. What each signal of a step means. [Stop] comes exactly when the
    counter is outside the program, [Send] exactly when the instruction at
    the counter is a [snd], [Receive] exactly when it is a [rcv] and the
    input queue is empty; every other step signals [None]. A step that
    signals [Stop] or [Receive] returns the state it was given. *)
Theorem signal_meaning (s s' : State) (r : Intr.t) :
  executeOne s = Ok (s', r) ->
  (r = Intr.Stop <-> current s = None) /\
  (r = Intr.Send <-> exists x, current s = Some (SndInstr x)) /\
  (r = Intr.Receive <-> exists x, current s = Some (RcvInstr x) /\ input s = []) /\
  (r = Intr.Stop \/ r = Intr.Receive -> s' = s).
Proof.
  intros H. destruct (current s) as [i|] eqn:Hc.
  - rewrite (executeOne_current _ _ Hc) in H.
    apply execute_signal in H as [Hr Hs].
    split; [|split; [|split]].
    + split; [|discriminate]. intros ->. destruct i; try discriminate.
      destruct (input s); discriminate.
    + split.
      * intros ->. destruct i; try discriminate; [eauto|].
        destruct (input s); discriminate.
      * intros [x [= ->]]. exact Hr.
    + split.
      * intros ->. destruct i; try discriminate.
        destruct (input s); [eauto | discriminate].
      * intros (x & [= ->] & Hin). now rewrite Hin in Hr.
    + intros [->| ->]; [|now apply Hs].
      destruct i; try discriminate. destruct (input s); discriminate.
  - rewrite (executeOne_no_current _ Hc) in H. injection H as <- <-.
    split; [|split; [|split]].
    + split; auto.
    + split; [discriminate|]. intros [x Hx]. discriminate.
    + split; [discriminate|]. intros (x & Hx & _). discriminate.
    + reflexivity.
Qed.

Lemma signal_meaning_witness :
  (Intr.Receive = Intr.Stop <-> current (newState [RcvInstr "a"]) = None) /\
  (Intr.Receive = Intr.Send
   <-> exists x, current (newState [RcvInstr "a"]) = Some (SndInstr x)) /\
  (Intr.Receive = Intr.Receive
   <-> exists x, current (newState [RcvInstr "a"]) = Some (RcvInstr x) /\
                 input (newState [RcvInstr "a"]) = []) /\
  (Intr.Receive = Intr.Stop \/ Intr.Receive = Intr.Receive ->
   newState [RcvInstr "a"] = newState [RcvInstr "a"]).
Proof.
  apply (signal_meaning (newState [RcvInstr "a"]) (newState [RcvInstr "a"]) Intr.Receive).
  reflexivity.
Defined.





(** ** Parsing one line: [parseOperand], [parseInstr] *)

Lemma substr_head (s : string) :
  substr s 0 3 = Ok (substring 0 (N.to_nat (N.min 3 (size s))) s).
Proof.
  unfold substr. destruct (N.ltb_spec (size s) 0); [lia|].
  now rewrite N.sub_0_r.
Qed.

Lemma stoi_Ok_range s v : stoi s = Ok v -> INT_MIN <= v <= INT_MAX.
Proof.
  unfold stoi. destruct (read_sign (skip_space s)) as [neg ds].
  destruct (read_digits ds 0 false) as [n|]; [|discriminate].
  cbv zeta. unfold in_int.
  destruct (Z.leb_spec INT_MIN (if neg then - n else n)); simpl; [|discriminate].
  destruct (Z.leb_spec (if neg then - n else n) INT_MAX); [|discriminate].
  intros [= <-]. lia.
Qed.

Lemma stoi_defined s : stoi s <> Undefined.
Proof.
  unfold stoi. destruct (read_sign (skip_space s)) as [neg ds].
  destruct (read_digits ds 0 false) as [n|]; [|discriminate].
  cbv zeta. destruct (in_int (if neg then - n else n)); discriminate.
Qed.

Lemma parseOperand_defined s : parseOperand s <> Undefined.
Proof.
  unfold parseOperand.
  destruct ((97 <=? char_val (front_char s)) && (char_val (front_char s) <=? 122));
    [discriminate|].
  pose proof (stoi_defined s). destruct (stoi s); simpl; first [discriminate | congruence].
Qed.

Lemma parseOperand_ok s o : parseOperand s = Ok o -> operand_ok o.
Proof.
  unfold parseOperand.
  destruct (Z.leb_spec 97 (char_val (front_char s)));
    destruct (Z.leb_spec (char_val (front_char s)) 122); simpl;
    try (intros [= <-]; simpl; unfold lowercase; lia);
    intros Hp; bind_inv Hp; injection Hp as <-; simpl;
    match goal with E : stoi _ = Ok _ |- _ => now apply stoi_Ok_range in E end.
Qed.

Lemma substr_defined s pos count : substr s pos count <> Undefined.
Proof. unfold substr. destruct (size s <? pos)%N; discriminate. Qed.

(** X12. A line of fewer than four characters has no first operand to
    read: [substr(4, ...)] throws [out_of_range], whatever the characters are. *)
Theorem short_line_refused (line : string) :
  (size line < 4)%N -> parseInstr line = Throw out_of_range.
Proof.
  intros H. unfold parseInstr. rewrite substr_head. cbn [mbind result_bind].
  assert (E : substr line 4 (size_sub (find line " " 5) 4) = Throw out_of_range).
  { unfold substr. destruct (N.ltb_spec (size line) 4); [reflexivity | lia]. }
  now rewrite E.
Qed.

Lemma short_line_refused_witness : parseInstr "set" = Throw out_of_range.
Proof. apply (short_line_refused "set"). reflexivity. Defined.

Lemma parseInstr_inv (line : string) (i : Instr) :
  parseInstr line = Ok i ->
  exists is_ xs x y,
    substr line 0 3 = Ok is_ /\
    substr line 4 (size_sub (find line " " 5) 4) = Ok xs /\
    parseOperand xs = Ok x /\
    ((find line " " 5 = npos /\ y = OpValue 0) \/
     (find line " " 5 <> npos /\
      exists ys, substr line (find line " " 5 + 1) npos = Ok ys /\
                 parseOperand ys = Ok y)) /\
    is_ = mnemonic i /\
    match i with
    | SndInstr x' => x' = x
    | SetInstr r y' | AddInstr r y' | MulInstr r y' | ModInstr r y' =>
        x = OpRegister r /\ y' = y
    | RcvInstr r => x = OpRegister r
    | JgzInstr x' y' => x' = x /\ y' = y
    end.
Proof.
  unfold parseInstr. intros H.
  bind_inv H. rename a into is_. bind_inv H. rename a into xs.
  bind_inv H. rename a into x. bind_inv H. rename a into y.
  exists is_, xs, x, y.
  split; [exact E|]. split; [exact E0|]. split; [exact E1|].
  split.
  { destruct (N.eqb_spec (find line " " 5) npos) as [Hn|Hn].
    - left. injection E2 as <-. auto.
    - right. split; [exact Hn|]. bind_inv E2. eauto. }
  clear E E0 E1 E2.
  destruct (String.eqb_spec is_ "snd") as [->|?].
  { injection H as <-. auto. }
  destruct (String.eqb_spec is_ "set") as [->|?].
  { bind_inv H. injection H as <-. destruct x; [discriminate|]. injection E as ->. auto. }
  destruct (String.eqb_spec is_ "add") as [->|?].
  { bind_inv H. injection H as <-. destruct x; [discriminate|]. injection E as ->. auto. }
  destruct (String.eqb_spec is_ "mul") as [->|?].
  { bind_inv H. injection H as <-. destruct x; [discriminate|]. injection E as ->. auto. }
  destruct (String.eqb_spec is_ "mod") as [->|?].
  { bind_inv H. injection H as <-. destruct x; [discriminate|]. injection E as ->. auto. }
  destruct (String.eqb_spec is_ "rcv") as [->|?].
  { bind_inv H. injection H as <-. destruct x; [discriminate|]. injection E as ->. auto. }
  destruct (String.eqb_spec is_ "jgz") as [->|?].
  { injection H as <-. auto. }
  discriminate.
Qed.

Lemma parseInstr_defined (line : string) : parseInstr line <> Undefined.
Proof.
  unfold parseInstr. rewrite substr_head. cbn [mbind result_bind].
  pose proof (substr_defined line 4 (size_sub (find line " " 5) 4)) as H1.
  destruct (substr line 4 _) as [xs| |]; simpl; try first [discriminate | congruence].
  pose proof (parseOperand_defined xs) as H2.
  destruct (parseOperand xs) as [x| |]; simpl; try first [discriminate | congruence].
  assert (Hy : (if (find line " " 5 =? npos)%N then Ok (OpValue 0)
                else ys ← substr line (find line " " 5 + 1) npos; parseOperand ys)
               <> Undefined).
  { destruct (find line " " 5 =? npos)%N; [discriminate|].
    pose proof (substr_defined line (find line " " 5 + 1) npos) as H3.
    destruct (substr line _ npos) as [ys| |]; simpl; try first [discriminate | congruence].
    apply parseOperand_defined. }
  destruct (if (find line " " 5 =? npos)%N then _ else _) as [y| |]; simpl;
    try first [discriminate | congruence].
  repeat match goal with
         | |- context [String.eqb ?a ?b] => destruct (String.eqb a b)
         end;
    try discriminate; destruct x; discriminate.
Qed.

(** X13. The first three characters of a line decide the instruction: a line
    that parses to an instruction starts with the mnemonic of that very
    instruction. A line that starts with none of the seven mnemonics is
    therefore never turned into an instruction; it raises an exception. *)
Theorem mnemonic_decides (line : string) :
  (forall i, parseInstr line = Ok i -> substr line 0 3 = Ok (mnemonic i)) /\
  ((forall i, substr line 0 3 <> Ok (mnemonic i)) -> exists e, parseInstr line = Throw e).
Proof.
  assert (H1 : forall i, parseInstr line = Ok i -> substr line 0 3 = Ok (mnemonic i)).
  { intros i H. apply parseInstr_inv in H as (is_ & xs & x & y & E & _ & _ & _ & -> & _).
    exact E. }
  split; [exact H1|].
  intros Hno. pose proof (parseInstr_defined line) as Hd.
  destruct (parseInstr line) as [i|e|] eqn:E.
  - exfalso. apply (Hno i). now apply H1.
  - eauto.
  - contradiction.
Qed.

Lemma mnemonic_decides_witness :
  substr "mul a 2" 0 3 = Ok (mnemonic (MulInstr "a" (OpValue 2))) /\
  exists e, parseInstr "xyz a b" = Throw e.
Proof.
  split.
  - apply (proj1 (mnemonic_decides "mul a 2")). reflexivity.
  - apply (proj2 (mnemonic_decides "xyz a b")).
    intros i H. destruct i; discriminate H.
Defined.

(** X14. Whatever [parseOperand] and [parseInstr] return is well formed:
    an operand is a register named by a lowercase letter or a literal in the
    range of [int], and so is every operand of a parsed instruction; the
    register written by [set], [add], [mul], [mod] and [rcv] is a lowercase
    letter. *)
Theorem parsed_is_well_formed (line : string) :
  (forall o, parseOperand line = Ok o -> operand_ok o) /\
  (forall i, parseInstr line = Ok i -> instr_ok i).
Proof.
  split; [apply parseOperand_ok|].
  intros i H.
  apply parseInstr_inv in H as (is_ & xs & x & y & _ & _ & Hx & Hy & _ & Hi).
  apply parseOperand_ok in Hx.
  assert (Hy' : operand_ok y).
  { destruct Hy as [[_ ->] | [_ (ys & _ & Hy)]].
    - simpl. vm_compute. split; discriminate.
    - now apply parseOperand_ok in Hy. }
  destruct i; simpl in *.
  - now subst.
  - destruct Hi as [-> ->]. auto.
  - destruct Hi as [-> ->]. auto.
  - destruct Hi as [-> ->]. auto.
  - destruct Hi as [-> ->]. auto.
  - now subst.
  - destruct Hi as [-> ->]. auto.
Qed.

Lemma parsed_is_well_formed_witness :
  operand_ok (OpValue (-12)) /\ instr_ok (JgzInstr (OpRegister "q") (OpValue (-12))).
Proof.
  split.
  - apply (proj1 (parsed_is_well_formed "-12")). reflexivity.
  - apply (proj2 (parsed_is_well_formed "jgz q -12")). reflexivity.
Defined.

Lemma find_from_found (c : ascii) (t rest : string) (i pos : N) :
  (forall n, String.get n t <> Some c) ->
  (pos <= i + size t)%N ->
  find_from c (t ++ String c rest)%string i pos = (i + size t)%N.
Proof.
  revert i. induction t as [|a t IH]; intros i Hno Hpos.
  - simpl. rewrite Ascii.eqb_refl.
    unfold size in *. simpl in *.
    destruct (N.leb_spec pos i); simpl; lia.
  - simpl. destruct (Ascii.eqb_spec a c) as [->|Hne].
    + exfalso. apply (Hno 0%nat). reflexivity.
    + rewrite andb_false_r. rewrite size_String.
      rewrite IH; [lia | intros n; apply (Hno (S n)) | rewrite size_String in Hpos; lia].
Qed.

Lemma substring_prefix (t r : string) :
  substring 0 (String.length t) (t ++ r)%string = t.
Proof. induction t as [|a t IH]; simpl; [now destruct r | now rewrite IH]. Qed.

Lemma substring_skip (t r : string) (n m : nat) :
  substring (String.length t + n) m (t ++ r)%string = substring n m r.
Proof. induction t as [|a t IH]; simpl; [reflexivity | exact IH]. Qed.

Lemma size_append (t r : string) : size (t ++ r)%string = (size t + size r)%N.
Proof.
  induction t as [|a t IH]; [reflexivity|].
  change (String a t ++ r)%string with (String a (t ++ r)%string).
  rewrite !size_String, IH. lia.
Qed.

(** The four reads [parseInstr] makes of a line that carries two operand
    tokens. *)
Lemma two_operand_reads (a b c d h : ascii) (t1 t2 : string) :
  (forall n, String.get n t1 <> Some " "%char) ->
  (size t1 + size t2 + 6 < npos)%N ->
  let line :=
    String a (String b (String c (String d (String h (t1 ++ String " " t2)%string)))) in
  substr line 0 3 = Ok (String a (String b (String c ""))) /\
  (find line " " 5 =? npos)%N = false /\
  substr line 4 (size_sub (find line " " 5) 4) = Ok (String h t1) /\
  substr line (find line " " 5 + 1) npos = Ok t2.
Proof.
  intros Hsp Hsz line.
  assert (Happ : size (t1 ++ String " " t2)%string = (size t1 + size t2 + 1)%N).
  { rewrite size_append, size_String. lia. }
  assert (Hline : size line = (size t1 + size t2 + 6)%N).
  { unfold line. rewrite !size_String, Happ. lia. }
  assert (Hfind : find line " " 5 = (5 + size t1)%N).
  { unfold find, line. simpl.
    change (0 + 1 + 1 + 1 + 1 + 1)%N with 5%N.
    apply find_from_found; [exact Hsp | lia]. }
  assert (Hnpos : npos = 18446744073709551615%N) by reflexivity.
  rewrite Hfind. split; [|split; [|split]].
  - rewrite substr_head, Hline.
    replace (N.min 3 (size t1 + size t2 + 6)) with 3%N by lia. reflexivity.
  - apply N.eqb_neq. lia.
  - unfold substr. rewrite Hline.
    destruct (N.ltb_spec (size t1 + size t2 + 6) 4); [lia|].
    assert (Hsub : size_sub (5 + size t1) 4 = (1 + size t1)%N).
    { unfold size_sub.
      replace (5 + size t1 + 2 ^ 64 - 4)%N with (1 + size t1 + 1 * 2 ^ 64)%N by lia.
      rewrite N.Div0.mod_add. apply N.mod_small.
      change (2 ^ 64)%N with 18446744073709551616%N. lia. }
    rewrite Hsub.
    replace (N.to_nat (N.min (1 + size t1) (size t1 + size t2 + 6 - 4)))
      with (S (String.length t1)) by (unfold size; lia).
    unfold line. simpl. now rewrite substring_prefix.
  - unfold substr. rewrite Hline.
    destruct (N.ltb_spec (size t1 + size t2 + 6) (5 + size t1 + 1)); [lia|].
    replace (N.to_nat (5 + size t1 + 1)) with (5 + (String.length t1 + 1))%nat
      by (unfold size; lia).
    replace (N.to_nat (N.min npos (size t1 + size t2 + 6 - (5 + size t1 + 1))))
      with (String.length t2) by (unfold size in *; lia).
    unfold line. simpl. rewrite substring_skip. simpl. now rewrite substring_all.
Qed.

(** X15. A line [<mnemonic> <t1> <t2>] is read token by token: the first
    operand is what [parseOperand] makes of [t1], the second what it makes
    of [t2] (everything behind the first space after the first operand).
    [jgz] takes both as they come; [set], [add], [mul] and [mod] need [t1]
    to be a register; [snd] and [rcv] read the second token and drop it. *)
Theorem two_operand_line (h : ascii) (t1 t2 : string) (x y : Operand) :
  (forall n, String.get n t1 <> Some " "%char) ->
  (size t1 + size t2 + 6 < npos)%N ->
  parseOperand (String h t1) = Ok x ->
  parseOperand t2 = Ok y ->
  parseInstr ("jgz " ++ String h t1 ++ " " ++ t2)%string = Ok (JgzInstr x y) /\
  parseInstr ("set " ++ String h t1 ++ " " ++ t2)%string
  = (r ← get_Register x; mret (SetInstr r y)) /\
  parseInstr ("add " ++ String h t1 ++ " " ++ t2)%string
  = (r ← get_Register x; mret (AddInstr r y)) /\
  parseInstr ("mul " ++ String h t1 ++ " " ++ t2)%string
  = (r ← get_Register x; mret (MulInstr r y)) /\
  parseInstr ("mod " ++ String h t1 ++ " " ++ t2)%string
  = (r ← get_Register x; mret (ModInstr r y)) /\
  parseInstr ("snd " ++ String h t1 ++ " " ++ t2)%string = Ok (SndInstr x) /\
  parseInstr ("rcv " ++ String h t1 ++ " " ++ t2)%string
  = (r ← get_Register x; mret (RcvInstr r)).
Proof.
  intros Hsp Hsz Hx Hy. cbn [append].
  repeat split; unfold parseInstr;
    match goal with
    | |- context [substr (String ?a (String ?b (String ?c (String ?d _)))) 0 3] =>
        destruct (two_operand_reads a b c d h t1 t2 Hsp Hsz) as (-> & -> & -> & ->)
    end;
    cbn [mbind result_bind]; rewrite Hx; cbn [mbind result_bind]; rewrite Hy;
    reflexivity.
Qed.

Lemma two_operand_line_witness :
  parseInstr "jgz -1 b" = Ok (JgzInstr (OpValue (-1)) (OpRegister "b")) /\
  parseInstr "set -1 b" = Throw bad_variant_access /\
  parseInstr "add -1 b" = Throw bad_variant_access /\
  parseInstr "mul -1 b" = Throw bad_variant_access /\
  parseInstr "mod -1 b" = Throw bad_variant_access /\
  parseInstr "snd -1 b" = Ok (SndInstr (OpValue (-1))) /\
  parseInstr "rcv -1 b" = Throw bad_variant_access.
Proof.
  apply (two_operand_line "-" "1" "b" (OpValue (-1)) (OpRegister "b")).
  - intros [|[|n]]; simpl; discriminate.
  - reflexivity.
  - reflexivity.
  - reflexivity.
Defined.

(** X16. A token that is no number is refused with [invalid_argument]: the
    empty token, a token whose first character is neither a lowercase letter
    nor white space, a sign or a digit, and a sign that no digit follows. *)
Theorem not_a_number_refused :
  parseOperand "" = Throw invalid_argument /\
  (forall c rest,
      ~ lowercase c -> isspace c = false -> c <> "-"%char -> c <> "+"%char ->
      digit_of c = None ->
      parseOperand (String c rest) = Throw invalid_argument) /\
  (forall s, digit_of (front_char s) = None ->
             parseOperand (String "-" s) = Throw invalid_argument /\
             parseOperand (String "+" s) = Throw invalid_argument).
Proof.
  split; [reflexivity|]. split.
  - intros c rest Hl Hs Hm Hp Hd.
    destruct c as [[] [] [] [] [] [] [] []];
      first [ reflexivity
            | exfalso; apply Hm; reflexivity
            | exfalso; apply Hp; reflexivity
            | exfalso; vm_compute in Hs; discriminate Hs
            | exfalso; vm_compute in Hd; discriminate Hd
            | exfalso; apply Hl; vm_compute; split; discriminate ].
  - intros s Hd.
    assert (Hr : read_digits s 0 false = None).
    { destruct s as [|c s]; [reflexivity|]. simpl in *. now rewrite Hd. }
    destruct (stoi_minus s) as [E1 E2]. destruct (stoi_plus s) as [E3 E4].
    rewrite E2, E4, E1, E3, Hr. split; reflexivity.
Qed.

Lemma not_a_number_refused_witness :
  parseOperand "A7" = Throw invalid_argument /\
  parseOperand "-x" = Throw invalid_argument /\
  parseOperand "+" = Throw invalid_argument.
Proof.
  pose proof not_a_number_refused as (_ & H1 & H2).
  split; [|split].
  - apply (H1 "A"%char "7").
    + vm_compute. intros [H _]. apply H. reflexivity.
    + reflexivity.
    + discriminate.
    + discriminate.
    + reflexivity.
  - apply (H2 "x"). reflexivity.
  - apply (H2 ""). reflexivity.
Defined.

Lemma read_digits_junk (u : Decimal.uint) (c : ascii) (rest : string) (acc : Z) :
  digit_of c = None ->
  read_digits (NilEmpty.string_of_uint u ++ String c rest)%string acc true
  = read_digits (NilEmpty.string_of_uint u) acc true.
Proof.
  intros Hc. revert acc.
  induction u as [|u IH|u IH|u IH|u IH|u IH|u IH|u IH|u IH|u IH|u IH]; intros acc;
    cbn [NilEmpty.string_of_uint append read_digits];
    [now rewrite Hc | ..];
    match goal with
    | |- context [digit_of ?k] =>
        let v := eval vm_compute in (digit_of k) in change (digit_of k) with v
    end;
    cbv iota beta; apply IH.
Qed.

(** X17. [stoi] reads a number where it finds one and ignores the rest:
    behind the literal of any [z], whatever starts with a character that is
    no digit is dropped, so the token parses to what the literal alone parses
    to; and white space in front of a token is skipped (a register name
    behind it is then no longer recognised, since only the first character
    is tested for a letter). *)
Theorem stoi_is_lenient (c : ascii) (rest : string) :
  (digit_of c = None ->
   forall z, parseOperand (literal z ++ String c rest)%string = parseOperand (literal z)) /\
  (isspace c = true ->
   parseOperand (String c rest) = (v ← stoi rest; mret (OpValue v))).
Proof.
  split.
  - intros Hc z.
    destruct (literal_cases z) as (u & Hu & [(_ & _ & ->) | (_ & _ & ->)]);
      destruct (uint_head u Hu) as (c0 & r0 & d0 & Hs & Hd0);
      pose proof (read_digits_junk u c rest 0 Hc) as Hj;
      rewrite Hs in *; cbn [append] in *.
    + destruct (stoi_digit_first c0 (r0 ++ String c rest)%string d0 Hd0) as [E1 E2].
      destruct (stoi_digit_first c0 r0 d0 Hd0) as [E3 E4].
      now rewrite E2, E4, E1, E3, Hj.
    + destruct (stoi_minus (String c0 (r0 ++ String c rest)%string)) as [E1 E2].
      destruct (stoi_minus (String c0 r0)) as [E3 E4].
      rewrite E2, E4, E1, E3.
      rewrite (read_digits_started c0 _ d0 Hd0), (read_digits_started c0 r0 d0 Hd0).
      now rewrite Hj.
  - intros Hs.
    destruct c as [[] [] [] [] [] [] [] []];
      first [ reflexivity | exfalso; vm_compute in Hs; discriminate Hs ].
Qed.

Lemma stoi_is_lenient_witness :
  parseOperand (literal 12 ++ "abc")%string = parseOperand (literal 12) /\
  parseOperand " a" = (v ← stoi "a"; mret (OpValue v)).
Proof.
  split.
  - apply (proj1 (stoi_is_lenient "a" "bc")). reflexivity.
  - apply (proj2 (stoi_is_lenient " " "a")). reflexivity.
Defined.

(** ** Parsing a program: [parseProgram] *)

Lemma parseProgram_from_Ok (lines : list string) (p q : Program) :
  parseProgram_from lines p = Ok q <->
  exists is_, Forall2 (fun l i => parseInstr l = Ok i) lines is_ /\ q = p ++ is_.
Proof.
  revert p. induction lines as [|l lines IH]; intros p; simpl.
  - split.
    + intros [= <-]. exists []. split; [constructor | now rewrite app_nil_r].
    + intros (is_ & HF & ->). apply Forall2_nil_inv_l in HF as ->.
      now rewrite app_nil_r.
  - split.
    + intros H. bind_inv H. apply IH in H as (is_ & HF & ->).
      exists (a :: is_). split; [now constructor | now rewrite <- app_assoc].
    + intros (is_ & HF & ->).
      apply Forall2_cons_inv_l in HF as (i & is' & Hi & HF & ->).
      rewrite Hi. simpl. apply IH. exists is'. split; [exact HF|].
      now rewrite <- app_assoc.
Qed.

(** X18. [parseProgram] returns a program exactly when every line parses,
    and the program is then the instructions of the lines, one per line and
    in the order of the lines. *)
Theorem parseProgram_line_by_line (lines : list string) (p : Program) :
  parseProgram lines = Ok p <-> Forall2 (fun l i => parseInstr l = Ok i) lines p.
Proof.
  unfold parseProgram. rewrite parseProgram_from_Ok. split.
  - intros (is_ & HF & ->). exact HF.
  - intros HF. exists p. auto.
Qed.

Lemma parseProgram_from_error (good : list string) (bad : string) (rest : list string)
      (p : Program) (e : exn) :
  Forall (fun l => exists i, parseInstr l = Ok i) good ->
  parseInstr bad = Throw e ->
  parseProgram_from (good ++ bad :: rest) p = Throw e.
Proof.
  intros HF Hbad. revert p. induction HF as [|l good [i Hi] _ IH]; intros p; simpl.
  - now rewrite Hbad.
  - rewrite Hi. simpl. apply IH.
Qed.

(** X19. The first line that does not parse stops [parseProgram]: its
    exception is the exception of the whole, whatever the lines behind it
    are, and no program is returned. *)
Theorem parseProgram_first_error (good : list string) (bad : string)
        (rest : list string) (e : exn) :
  Forall (fun l => exists i, parseInstr l = Ok i) good ->
  parseInstr bad = Throw e ->
  parseProgram (good ++ bad :: rest) = Throw e /\
  forall fuel, solve_part2 fuel (good ++ bad :: rest) = Throw e.
Proof.
  intros HF Hbad.
  assert (H : parseProgram (good ++ bad :: rest) = Throw e)
    by now apply parseProgram_from_error.
  split; [exact H|]. intros fuel. unfold solve_part2. now rewrite H.
Qed.

Lemma parseProgram_first_error_witness :
  parseProgram (["snd 1"] ++ "xyz a b" :: ["set"]) = Throw std_exception /\
  forall fuel, solve_part2 fuel (["snd 1"] ++ "xyz a b" :: ["set"]) = Throw std_exception.
Proof.
  apply (parseProgram_first_error ["snd 1"] "xyz a b" ["set"] std_exception).
  - constructor; [|constructor]. eexists. reflexivity.
  - reflexivity.
Defined.

(** ** The loop of [solve_part2] *)

Lemma turn_no_output (s0 s1 m0 m1 : State) (cnt : Z) (r0 r1 : Intr.t) :
  executeOne s0 = Ok (m0, r0) -> executeOne s1 = Ok (m1, r1) ->
  output m0 = [] -> output m1 = [] ->
  turn s0 s1 cnt = Ok (m0, m1, cnt, r0, r1).
Proof.
  intros E0 E1 O0 O1. unfold turn. rewrite E0, E1. cbn [mbind result_bind].
  unfold drain, drain_count. rewrite O0. cbn [length transfer].
  rewrite O1. reflexivity.
Qed.

(** X20. As soon as one machine finds its counter outside the program, the
    turn is the last one: the loop stops with [Both programs stopped
    normally], also when the other machine is blocked on a receive. The
    other machine has still taken its step of that turn, and both drains
    have run. *)
Theorem halt_ends_loop fuel s0 s1 cnt t0 t1 c r0 r1 :
  current s0 = None \/ current s1 = None ->
  turn s0 s1 cnt = Ok (t0, t1, c, r0, r1) ->
  loop (S fuel) s0 s1 cnt
  = Ok (Some (mkReport "Both programs stopped normally" c t0 t1)) /\
  exists m0 m1,
    executeOne s0 = Ok (m0, r0) /\ executeOne s1 = Ok (m1, r1) /\
    pc t0 = pc m0 /\ regs t0 = regs m0 /\ pc t1 = pc m1 /\ regs t1 = regs m1 /\
    input t0 = input m0 ++ output m1 /\ input t1 = input m1 ++ output m0.
Proof.
  intros Hhalt Ht. pose proof Ht as Hi.
  apply turn_inv in Hi as (m0 & m1 & E0 & E1 & -> & -> & _).
  split.
  - simpl. rewrite Ht. cbn [mbind result_bind].
    assert (Hstop : r0 = Intr.Stop \/ r1 = Intr.Stop).
    { destruct Hhalt as [Hc|Hc]; apply executeOne_no_current in Hc.
      - left. congruence.
      - right. congruence. }
    destruct Hstop as [-> | ->]; [now destruct r1 | now destruct r0].
  - exists m0, m1. repeat split; assumption.
Qed.

Lemma halt_ends_loop_witness :
  loop 1 (mkState 1 (replicate 26 0) [RcvInstr "a"] [] [])
         (mkState 0 (replicate 26 0) [RcvInstr "a"] [] []) 0
  = Ok (Some (mkReport "Both programs stopped normally" 0
                (mkState 1 (replicate 26 0) [RcvInstr "a"] [] [])
                (mkState 0 (replicate 26 0) [RcvInstr "a"] [] []))).
Proof.
  apply (halt_ends_loop 0
           (mkState 1 (replicate 26 0) [RcvInstr "a"] [] [])
           (mkState 0 (replicate 26 0) [RcvInstr "a"] [] []) 0
           (mkState 1 (replicate 26 0) [RcvInstr "a"] [] [])
           (mkState 0 (replicate 26 0) [RcvInstr "a"] [] []) 0
           Intr.Stop Intr.Receive).
  - left. reflexivity.
  - reflexivity.
Defined.

(** X21. Two machines that both stand at a [rcv] with nothing to receive
    and nothing left to deliver are a dead lock at once: the loop stops on
    that turn with [dead lock], the count and both machines unchanged. *)
Theorem blocked_pair_is_dead_lock fuel s0 s1 cnt x0 x1 :
  current s0 = Some (RcvInstr x0) -> input s0 = [] -> output s0 = [] ->
  current s1 = Some (RcvInstr x1) -> input s1 = [] -> output s1 = [] ->
  loop (S fuel) s0 s1 cnt = Ok (Some (mkReport "dead lock" cnt s0 s1)).
Proof.
  intros C0 I0 O0 C1 I1 O1.
  assert (E0 : executeOne s0 = Ok (s0, Intr.Receive)).
  { rewrite (executeOne_current _ _ C0). simpl. now rewrite I0. }
  assert (E1 : executeOne s1 = Ok (s1, Intr.Receive)).
  { rewrite (executeOne_current _ _ C1). simpl. now rewrite I1. }
  simpl. now rewrite (turn_no_output _ _ _ _ cnt _ _ E0 E1 O0 O1).
Qed.

Lemma blocked_pair_is_dead_lock_witness :
  loop 4 (newState [RcvInstr "a"]) (newState [RcvInstr "b"]) 7
  = Ok (Some (mkReport "dead lock" 7 (newState [RcvInstr "a"]) (newState [RcvInstr "b"]))).
Proof.
  apply (blocked_pair_is_dead_lock 3 (newState [RcvInstr "a"]) (newState [RcvInstr "b"])
           7 "a" "b"); reflexivity.
Defined.

Lemma self_jump_step (s : State) (x y : Operand) (c : Value) :
  current s = Some (JgzInstr x y) ->
  evalOperand s x = Ok c -> 0 < c -> evalOperand s y = Ok 0 ->
  INT_MIN <= pc s <= INT_MAX ->
  executeOne s = Ok (s, Intr.None).
Proof.
  intros Hc Hx Hpos Hy Hpc. rewrite (executeOne_current _ _ Hc). simpl.
  rewrite Hx. cbn [mbind result_bind].
  destruct (Z.ltb_spec 0 c); [|lia].
  rewrite Hy. cbn [mbind result_bind]. rewrite Z.add_0_r.
  rewrite checked64_Ok by (unfold INT_MIN, INT_MAX, INT64_MIN, INT64_MAX in *; lia).
  cbn [mbind result_bind mret result_ret]. rewrite wrap32_id by assumption.
  now destruct s.
Qed.

(** X22. The loop has no bound of its own. Two machines that both stand at
    a taken jump of offset 0 (as [jgz 1 0]) stay where they are turn after
    turn: however many turns are allowed, the loop is still running at the
    end of them, and nothing is ever reported. *)
Theorem self_jump_never_ends fuel s0 s1 cnt x0 y0 c0 x1 y1 c1 :
  current s0 = Some (JgzInstr x0 y0) ->
  evalOperand s0 x0 = Ok c0 -> 0 < c0 -> evalOperand s0 y0 = Ok 0 ->
  current s1 = Some (JgzInstr x1 y1) ->
  evalOperand s1 x1 = Ok c1 -> 0 < c1 -> evalOperand s1 y1 = Ok 0 ->
  wf_state s0 -> wf_state s1 -> output s0 = [] -> output s1 = [] ->
  loop fuel s0 s1 cnt = Ok None /\
  after fuel s0 s1 cnt = Ok (s0, s1, cnt).
Proof.
  intros C0 X0 P0 Y0 C1 X1 P1 Y1 [_ W0] [_ W1] O0 O1.
  pose proof (self_jump_step _ _ _ _ C0 X0 P0 Y0 W0) as E0.
  pose proof (self_jump_step _ _ _ _ C1 X1 P1 Y1 W1) as E1.
  pose proof (turn_no_output _ _ _ _ cnt _ _ E0 E1 O0 O1) as Ht.
  induction fuel as [|fuel [IH1 IH2]]; [split; reflexivity|].
  simpl. rewrite Ht. simpl. auto.
Qed.

Lemma self_jump_never_ends_witness :
  loop 1000 (newState [JgzInstr (OpValue 1) (OpValue 0)])
            (newState [JgzInstr (OpValue 1) (OpValue 0)]) 0 = Ok None /\
  after 1000 (newState [JgzInstr (OpValue 1) (OpValue 0)])
             (newState [JgzInstr (OpValue 1) (OpValue 0)]) 0
  = Ok (newState [JgzInstr (OpValue 1) (OpValue 0)],
        newState [JgzInstr (OpValue 1) (OpValue 0)], 0).
Proof.
  assert (W : wf_state (newState [JgzInstr (OpValue 1) (OpValue 0)]))
    by (split; [reflexivity | vm_compute; split; discriminate]).
  apply (self_jump_never_ends 1000
           (newState [JgzInstr (OpValue 1) (OpValue 0)])
           (newState [JgzInstr (OpValue 1) (OpValue 0)]) 0
           (OpValue 1) (OpValue 0) 1 (OpValue 1) (OpValue 0) 1);
    first [reflexivity | exact W].
Defined.

Lemma pending_is_sent (s s' : State) (r : Intr.t) :
  executeOne s = Ok (s', r) -> pending s = output s ++ sent s.
Proof.
  intros H. pose proof (step_queues _ _ _ H) as [Ho _].
  unfold pending. now rewrite H.
Qed.

Lemma sent_at_most_one (s : State) : (length (sent s) <= 1)%nat.
Proof.
  unfold sent. destruct (current s) as [[x| | | | | |]|]; simpl; try lia.
  destruct (evalOperand s x); simpl; lia.
Qed.

Lemma sends_cons side t ts : sends side (t :: ts) = sent (side t) ++ sends side ts.
Proof. reflexivity. Qed.

Lemma loop_count_sends fuel s0 s1 cnt rep :
  loop fuel s0 s1 cnt = Ok (Some rep) ->
  p1SendCount rep
  = cnt + Z.of_nat (length (output s1))
    + Z.of_nat (length (sends snd (turns fuel s0 s1 cnt))).
Proof.
  revert s0 s1 cnt.
  induction fuel as [|fuel IH]; intros s0 s1 cnt H; [discriminate|].
  simpl in H. simpl turns.
  destruct (turn s0 s1 cnt) as [[[[[t0 t1] c] r0] r1]| |] eqn:Et; simpl in H;
    try discriminate.
  pose proof (turn_signal _ _ _ _ _ _ _ _ Et) as (_ & _ & Hc & _ & Ho1).
  apply turn_inv in Et as (m0 & m1 & _ & E1 & _ & _ & _).
  rewrite (pending_is_sent _ _ _ E1), length_app in Hc.
  rewrite sends_cons, length_app. simpl fst; simpl snd.
  destruct (check r0 r1).
  - injection H as <-. simpl. unfold sends. simpl. lia.
  - rewrite (IH _ _ _ H), Ho1. simpl length. lia.
Qed.

(** X23. The count the loop prints is the number of [snd] instructions M1
    has executed (plus whatever was already in its output queue, which is
    nothing in [solve_part2], and the count the loop started from). *)
Theorem p1SendCount_counts_snd fuel s0 s1 cnt rep :
  loop fuel s0 s1 cnt = Ok (Some rep) ->
  p1SendCount rep
  = cnt + Z.of_nat (length (output s1))
    + Z.of_nat (length (sends snd (turns fuel s0 s1 cnt))).
Proof. apply loop_count_sends. Qed.

Lemma p1SendCount_counts_snd_witness :
  p1SendCount
    (mkReport "Both programs stopped normally" 1
       (mkState 1 (replicate 26 0) [SndInstr (OpValue 4)] [4] [])
       (mkState 1 (replicate 26 0) [SndInstr (OpValue 4)] [4] []))
  = 0 + Z.of_nat (length (output (newState [SndInstr (OpValue 4)])))
    + Z.of_nat (length (sends snd
                          (turns 2 (newState [SndInstr (OpValue 4)])
                             (newState [SndInstr (OpValue 4)]) 0))).
Proof.
  apply (p1SendCount_counts_snd 2
           (newState [SndInstr (OpValue 4)]) (newState [SndInstr (OpValue 4)]) 0).
  reflexivity.
Defined.

Lemma sends_at_most_turns side ts : (length (sends side ts) <= length ts)%nat.
Proof.
  induction ts as [|t ts IH]; [simpl; lia|].
  rewrite sends_cons, length_app. simpl.
  pose proof (sent_at_most_one (side t)). lia.
Qed.

Lemma turns_at_most_fuel fuel s0 s1 cnt : (length (turns fuel s0 s1 cnt) <= fuel)%nat.
Proof.
  revert s0 s1 cnt. induction fuel as [|fuel IH]; intros s0 s1 cnt; simpl; [lia|].
  destruct (turn s0 s1 cnt) as [[[[[t0 t1] c] r0] r1]| |]; simpl; try lia.
  destruct (check r0 r1); simpl; [lia|]. specialize (IH t0 t1 c). lia.
Qed.

(** X24. A machine sends at most one value per turn, so the count can grow
    by at most one per turn: started with an empty output queue of M1, the
    loop prints a count between the count it started from and that count plus
    the number of turns it ran. *)
Theorem p1SendCount_bounded fuel s0 s1 cnt rep :
  loop fuel s0 s1 cnt = Ok (Some rep) ->
  output s1 = [] ->
  cnt <= p1SendCount rep <= cnt + Z.of_nat (length (turns fuel s0 s1 cnt)) /\
  (length (turns fuel s0 s1 cnt) <= fuel)%nat.
Proof.
  intros H Ho.
  pose proof (loop_count_sends _ _ _ _ _ H) as Hc.
  rewrite Ho in Hc. simpl in Hc.
  pose proof (sends_at_most_turns snd (turns fuel s0 s1 cnt)).
  pose proof (turns_at_most_fuel fuel s0 s1 cnt).
  split; [lia | assumption].
Qed.

Lemma p1SendCount_bounded_witness :
  0 <= p1SendCount
         (mkReport "Both programs stopped normally" 1
            (mkState 1 (replicate 26 0) [SndInstr (OpValue 4)] [4] [])
            (mkState 1 (replicate 26 0) [SndInstr (OpValue 4)] [4] []))
    <= 0 + Z.of_nat (length (turns 2 (newState [SndInstr (OpValue 4)])
                               (newState [SndInstr (OpValue 4)]) 0)) /\
  le (length (turns 2 (newState [SndInstr (OpValue 4)])
                (newState [SndInstr (OpValue 4)]) 0)) 2.
Proof.
  apply (p1SendCount_bounded 2
           (newState [SndInstr (OpValue 4)]) (newState [SndInstr (OpValue 4)]) 0);
    reflexivity.
Defined.

Lemma turn_keeps (s0 s1 : State) (cnt : Z) t0 t1 c r0 r1 :
  turn s0 s1 cnt = Ok (t0, t1, c, r0, r1) ->
  program t0 = program s0 /\ program t1 = program s1 /\
  (wf_state s0 -> wf_state t0) /\ (wf_state s1 -> wf_state t1) /\
  (Forall instr_ok (program s0) -> Forall instr_ok (program s1) ->
   values_ok s0 -> values_ok s1 -> values_ok t0 /\ values_ok t1) /\
  cnt <= c.
Proof.
  intros H.
  apply turn_inv in H as (m0 & m1 & E0 & E1 & -> & -> & ->).
  pose proof (executeOne_shape _ _ _ E0) as [P0 W0].
  pose proof (executeOne_shape _ _ _ E1) as [P1 W1].
  simpl. split; [exact P0|]. split; [exact P1|].
  split; [exact W0|]. split; [exact W1|].
  split; [|lia].
  intros I0 I1 V0 V1.
  pose proof (executeOne_values _ _ _ I0 V0 E0) as (R0 & In0 & Out0).
  pose proof (executeOne_values _ _ _ I1 V1 E1) as (R1 & In1 & Out1).
  unfold values_ok. simpl.
  repeat split; try assumption; try constructor; apply Forall_app; auto.
Qed.

(** X25. Over any number of turns of the loop the two machines keep their
    programs and their shape (twenty-six registers, a counter that is an
    [int]), no stored value outgrows [int64_t] when the literals of the
    programs fit, and the count never decreases; once a turn has run, both
    output queues are empty. *)
Theorem run_keeps_invariants fuel s0 s1 cnt t0 t1 c :
  after fuel s0 s1 cnt = Ok (t0, t1, c) ->
  wf_state s0 -> wf_state s1 ->
  program t0 = program s0 /\ program t1 = program s1 /\
  wf_state t0 /\ wf_state t1 /\
  (Forall instr_ok (program s0) -> Forall instr_ok (program s1) ->
   values_ok s0 -> values_ok s1 -> values_ok t0 /\ values_ok t1) /\
  cnt <= c /\
  (fuel <> 0%nat -> output t0 = [] /\ output t1 = []).
Proof.
  revert s0 s1 cnt.
  induction fuel as [|fuel IH]; intros s0 s1 cnt H W0 W1.
  - injection H as <- <- <-.
    split; [reflexivity|]. split; [reflexivity|].
    split; [exact W0|]. split; [exact W1|].
    split; [auto|]. split; [lia|]. intros Hne. now contradiction Hne.
  - simpl in H.
    destruct (turn s0 s1 cnt) as [[[[[u0 u1] k] r0] r1]| |] eqn:Et; simpl in H;
      try discriminate.
    pose proof (turn_signal _ _ _ _ _ _ _ _ Et) as (_ & _ & _ & O0 & O1).
    apply turn_keeps in Et as (P0 & P1 & K0 & K1 & KV & Kc).
    destruct (check r0 r1).
    + injection H as <- <- <-.
      split; [exact P0|]. split; [exact P1|]. split; [auto|]. split; [auto|].
      split; [exact KV|]. split; [exact Kc|]. auto.
    + destruct (IH _ _ _ H (K0 W0) (K1 W1)) as (Q0 & Q1 & V0 & V1 & QV & Qc & QO).
      split; [congruence|]. split; [congruence|].
      split; [exact V0|]. split; [exact V1|].
      split.
      { intros I0 I1 A0 A1. destruct (KV I0 I1 A0 A1) as [B0 B1].
        apply QV; try assumption; congruence. }
      split; [lia|].
      intros _. destruct fuel as [|fuel'].
      * injection H as <- <- <-. auto.
      * apply QO. discriminate.
Qed.

Lemma run_keeps_invariants_witness :
  program (mkState 1 (replicate 26 0) [SndInstr (OpValue 4)] [4] [])
  = [SndInstr (OpValue 4)] /\
  program (mkState 1 (replicate 26 0) [SndInstr (OpValue 4)] [4] [])
  = [SndInstr (OpValue 4)] /\
  wf_state (mkState 1 (replicate 26 0) [SndInstr (OpValue 4)] [4] []) /\
  wf_state (mkState 1 (replicate 26 0) [SndInstr (OpValue 4)] [4] []) /\
  (Forall instr_ok [SndInstr (OpValue 4)] -> Forall instr_ok [SndInstr (OpValue 4)] ->
   values_ok (newState [SndInstr (OpValue 4)]) ->
   values_ok (newState [SndInstr (OpValue 4)]) ->
   values_ok (mkState 1 (replicate 26 0) [SndInstr (OpValue 4)] [4] []) /\
   values_ok (mkState 1 (replicate 26 0) [SndInstr (OpValue 4)] [4] [])) /\
  0 <= 1 /\
  (2%nat <> 0%nat ->
   output (mkState 1 (replicate 26 0) [SndInstr (OpValue 4)] [4] []) = [] /\
   output (mkState 1 (replicate 26 0) [SndInstr (OpValue 4)] [4] []) = []).
Proof.
  assert (W : wf_state (newState [SndInstr (OpValue 4)]))
    by (split; [reflexivity | vm_compute; split; discriminate]).
  apply (run_keeps_invariants 2
           (newState [SndInstr (OpValue 4)]) (newState [SndInstr (OpValue 4)]) 0
           (mkState 1 (replicate 26 0) [SndInstr (OpValue 4)] [4] [])
           (mkState 1 (replicate 26 0) [SndInstr (OpValue 4)] [4] []) 1
           eq_refl W W).
Defined.

(** ** The drains of a turn *)

Lemma transfer_count_Ok (n : nat) (src dst : State) (cnt : Z) :
  n = length (output src) -> INT_MIN <= cnt -> cnt + Z.of_nat n <= INT_MAX ->
  transfer_count n src dst cnt
  = Ok (with_output src [], with_input dst (input dst ++ output src),
        cnt + Z.of_nat n).
Proof.
  revert src dst cnt. induction n as [|n IH]; intros src dst cnt Hn Hlo Hhi.
  - destruct src as [c r p i o]. simpl in *. destruct o; [|discriminate].
    unfold with_input, with_output. simpl. rewrite app_nil_r, Z.add_0_r.
    now destruct dst.
  - destruct src as [c r p i o]. simpl in Hn. simpl transfer_count.
    destruct o as [|v q]; [discriminate|]. injection Hn as Hn.
    rewrite checked32_Ok by (apply in_int_true; lia). cbn [mbind result_bind].
    rewrite IH; [ | exact Hn | lia | lia].
    replace (cnt + Z.of_nat (S n)) with (cnt + 1 + Z.of_nat n) by lia.
    unfold with_output, with_input. cbn [pc regs program input output].
    now rewrite <- app_assoc.
Qed.

Lemma transfer_count_overflow (n : nat) (src dst : State) (cnt : Z) :
  n = length (output src) -> INT_MIN <= cnt <= INT_MAX ->
  INT_MAX < cnt + Z.of_nat n ->
  transfer_count n src dst cnt = Undefined.
Proof.
  revert src dst cnt. induction n as [|n IH]; intros src dst cnt Hn Hc Hhi; [lia|].
  destruct src as [c r p i o]. simpl in Hn. simpl transfer_count.
  destruct o as [|v q]; [discriminate|]. injection Hn as Hn.
  unfold checked32. destruct (in_int (cnt + 1)) eqn:E; [|reflexivity].
  cbn [mbind result_bind]. apply IH; [exact Hn | | lia].
  unfold in_int in E. apply andb_prop in E as [E1 E2].
  apply Z.leb_le in E1. apply Z.leb_le in E2. lia.
Qed.

(** X26. A drain moves the whole output queue of one machine behind the
    input queue of the other, in order, and leaves the output queue empty;
    nothing else of either machine changes. The drain that counts adds the
    number of values moved to the count, and has no defined result when
    that would take the count beyond [INT_MAX]. *)
Theorem drain_contract (src dst : State) (cnt : Z) :
  INT_MIN <= cnt <= INT_MAX ->
  drain src dst
  = (mkState (pc src) (regs src) (program src) (input src) [],
     mkState (pc dst) (regs dst) (program dst) (input dst ++ output src) (output dst)) /\
  (cnt + Z.of_nat (length (output src)) <= INT_MAX ->
   drain_count src dst cnt
   = Ok (mkState (pc src) (regs src) (program src) (input src) [],
         mkState (pc dst) (regs dst) (program dst) (input dst ++ output src) (output dst),
         cnt + Z.of_nat (length (output src)))) /\
  (INT_MAX < cnt + Z.of_nat (length (output src)) ->
   drain_count src dst cnt = Undefined).
Proof.
  intros Hc. split; [apply drain_all|]. split; intros H.
  - unfold drain_count. now rewrite transfer_count_Ok by (try reflexivity; lia).
  - unfold drain_count. now apply transfer_count_overflow.
Qed.

Lemma drain_contract_witness :
  drain (mkState 3 [] [] [1] [2; 3]) (mkState 4 [] [] [5] [6])
  = (mkState 3 [] [] [1] [], mkState 4 [] [] ([5] ++ [2; 3]) [6]) /\
  drain_count (mkState 3 [] [] [1] [2; 3]) (mkState 4 [] [] [5] [6]) 10
  = Ok (mkState 3 [] [] [1] [], mkState 4 [] [] ([5] ++ [2; 3]) [6],
        10 + Z.of_nat (length [2; 3])) /\
  drain_count (mkState 3 [] [] [1] [2; 3]) (mkState 4 [] [] [5] [6]) 2147483646
  = Undefined.
Proof.
  assert (R0 : INT_MIN <= 0 <= INT_MAX) by (vm_compute; split; discriminate).
  assert (R1 : INT_MIN <= 10 <= INT_MAX) by (vm_compute; split; discriminate).
  assert (R2 : INT_MIN <= 2147483646 <= INT_MAX) by (vm_compute; split; discriminate).
  split; [|split].
  - apply (proj1 (drain_contract (mkState 3 [] [] [1] [2; 3])
                    (mkState 4 [] [] [5] [6]) 0 R0)).
  - apply (proj1 (proj2 (drain_contract (mkState 3 [] [] [1] [2; 3])
                           (mkState 4 [] [] [5] [6]) 10 R1))).
    vm_compute. discriminate.
  - apply (proj2 (proj2 (drain_contract (mkState 3 [] [] [1] [2; 3])
                           (mkState 4 [] [] [5] [6]) 2147483646 R2))).
    reflexivity.
Defined.

(** ** Instructions in sequence *)

Lemma current_lookup (s : State) (i : Instr) :
  0 <= pc s -> program s !! Z.to_nat (pc s) = Some i -> current s = Some i.
Proof.
  intros Hpc Hl. unfold current.
  pose proof (lookup_lt_Some _ _ _ Hl).
  destruct (Z.ltb_spec (pc s) 0); [lia|].
  destruct (Z.geb_spec (pc s) (Z.of_nat (length (program s)))); [lia|].
  exact Hl.
Qed.

(** X27. [set x v] followed by [add x y], with [y] a literal or another
    register, leaves [v] plus the value of [y] in register [x] after the two
    steps, two instructions further on. *)
Theorem set_then_add (s : State) (x : Register) (v : Value) (y : Operand) (b : Value) :
  wf_state s -> 0 <= pc s -> pc s + 1 < INT_MAX ->
  program s !! Z.to_nat (pc s) = Some (SetInstr x (OpValue v)) ->
  program s !! Z.to_nat (pc s + 1) = Some (AddInstr x y) ->
  lowercase x -> y <> OpRegister x -> evalOperand s y = Ok b ->
  INT64_MIN <= v + b <= INT64_MAX ->
  exists s1 s2,
    executeOne s = Ok (s1, Intr.None) /\
    executeOne s1 = Ok (s2, Intr.None) /\
    getRegister s2 x = Ok (v + b) /\ pc s2 = pc s + 2.
Proof.
  intros W Hpc Hmax L0 L1 Lx Hy Hb Hr.
  pose proof W as [Hlen Hrange].
  destruct (store_then_advance s x v Hlen Lx ltac:(lia))
    as (s1 & E1 & G1 & F1 & P1 & Pr1 & _ & _).
  assert (X1 : executeOne s = Ok (s1, Intr.None)).
  { rewrite (executeOne_current _ _ (current_lookup _ _ Hpc L0)). exact E1. }
  pose proof (executeOne_shape _ _ _ X1) as [_ W1]. destruct (W1 W) as [Hlen1 _].
  assert (Hb1 : evalOperand s1 y = Ok b).
  { destruct y as [w|r]; [exact Hb|]. simpl in *.
    rewrite F1; [exact Hb | | congruence].
    exact (valid_index_lowercase _ (proj1 (getRegister_Ok_inv _ _ _ Hb))). }
  destruct (store_then_advance s1 x (v + b) Hlen1 Lx ltac:(lia))
    as (s2 & E2 & G2 & _ & P2 & _).
  exists s1, s2. split; [exact X1|]. split.
  - assert (C1 : current s1 = Some (AddInstr x y)).
    { apply current_lookup; [lia|]. now rewrite P1, Pr1. }
    rewrite (executeOne_current _ _ C1). unfold execute.
    change (evalOperand s1 (OpRegister x)) with (getRegister s1 x).
    rewrite G1, Hb1. cbn [mbind result_bind].
    rewrite (checked64_Ok _ Hr). exact E2.
  - split; [exact G2 | lia].
Qed.

Lemma set_then_add_witness :
  exists s1 s2,
    executeOne (mkState 0 (0 :: 5 :: replicate 24 0)
                  [SetInstr "a" (OpValue 10); AddInstr "a" (OpRegister "b")] [] [])
    = Ok (s1, Intr.None) /\
    executeOne s1 = Ok (s2, Intr.None) /\
    getRegister s2 "a" = Ok (10 + 5) /\ pc s2 = 0 + 2.
Proof.
  apply (set_then_add
           (mkState 0 (0 :: 5 :: replicate 24 0)
              [SetInstr "a" (OpValue 10); AddInstr "a" (OpRegister "b")] [] [])
           "a" 10 (OpRegister "b") 5).
  - split; [reflexivity | vm_compute; split; discriminate].
  - vm_compute. discriminate.
  - reflexivity.
  - reflexivity.
  - reflexivity.
  - vm_compute. split; discriminate.
  - discriminate.
  - reflexivity.
  - vm_compute. split; discriminate.
Defined.

(** X28. A blocked receive is retried and served one turn later. When M0
    stands at a [snd] of [v] and M1 at a [rcv x] with nothing to receive
    (and nothing else is on the way), the turn ends with [v] alone in M1's
    input queue, M1 still at its [rcv], the count unchanged and nothing
    reported; M1's next step then takes [v] into register [x] and moves on. *)
Theorem send_unblocks_receiver (s0 s1 : State) (cnt : Z) (o : Operand) (v : Value)
        (x : Register) :
  current s0 = Some (SndInstr o) -> evalOperand s0 o = Ok v ->
  INT_MIN <= pc s0 < INT_MAX -> output s0 = [] ->
  current s1 = Some (RcvInstr x) -> input s1 = [] -> output s1 = [] ->
  wf_state s1 -> lowercase x -> pc s1 < INT_MAX ->
  exists t0 t1 u1,
    turn s0 s1 cnt = Ok (t0, t1, cnt, Intr.Send, Intr.Receive) /\
    check Intr.Send Intr.Receive = None /\
    input t1 = [v] /\ pc t1 = pc s1 /\ regs t1 = regs s1 /\
    pc t0 = pc s0 + 1 /\ output t0 = [] /\
    executeOne t1 = Ok (u1, Intr.None) /\
    getRegister u1 x = Ok v /\ pc u1 = pc s1 + 1 /\ input u1 = [].
Proof.
  intros C0 Hv Hpc0 O0 C1 I1 O1 [Hlen1 Hr1] Lx Hmax1.
  assert (E0 : executeOne s0
               = Ok (mkState (pc s0 + 1) (regs s0) (program s0) (input s0) [v],
                     Intr.Send)).
  { rewrite (executeOne_current _ _ C0). simpl. rewrite Hv. cbn [mbind result_bind].
    rewrite incr_pc_Ok by (simpl; lia). now rewrite O0. }
  assert (E1 : executeOne s1 = Ok (s1, Intr.Receive)).
  { rewrite (executeOne_current _ _ C1). simpl. now rewrite I1. }
  pose (t1 := mkState (pc s1) (regs s1) (program s1) [v] []).
  assert (Ht : turn s0 s1 cnt
               = Ok (mkState (pc s0 + 1) (regs s0) (program s0) (input s0) [],
                     t1, cnt, Intr.Send, Intr.Receive)).
  { unfold turn. rewrite E0, E1. cbn [mbind result_bind].
    rewrite drain_all. unfold drain_count. simpl. rewrite O1, I1. simpl.
    unfold t1, with_input, with_output. simpl. now rewrite O1. }
  assert (Ct1 : current t1 = Some (RcvInstr x)).
  { apply current_Some in C1 as [Hp Hl]. apply current_lookup; simpl; [lia | exact Hl]. }
  destruct (store_then_advance (with_input t1 []) x v Hlen1 Lx ltac:(simpl; lia))
    as (u1 & Eu & Gu & _ & Pu & _ & Iu & _).
  exists (mkState (pc s0 + 1) (regs s0) (program s0) (input s0) []), t1, u1.
  split; [exact Ht|]. split; [reflexivity|].
  repeat (split; [reflexivity|]).
  split; [|split; [exact Gu | split; [exact Pu | exact Iu]]].
  rewrite (executeOne_current _ _ Ct1). exact Eu.
Qed.

Lemma send_unblocks_receiver_witness :
  exists t0 t1 u1,
    turn (newState [SndInstr (OpValue 8)])
         (mkState 1 (replicate 26 0) [SndInstr (OpValue 8); RcvInstr "c"] [] []) 0
    = Ok (t0, t1, 0, Intr.Send, Intr.Receive) /\
    check Intr.Send Intr.Receive = None /\
    input t1 = [8] /\ pc t1 = 1 /\ regs t1 = replicate 26 0 /\
    pc t0 = 0 + 1 /\ output t0 = [] /\
    executeOne t1 = Ok (u1, Intr.None) /\
    getRegister u1 "c" = Ok 8 /\ pc u1 = 1 + 1 /\ input u1 = [].
Proof.
  apply (send_unblocks_receiver (newState [SndInstr (OpValue 8)])
           (mkState 1 (replicate 26 0) [SndInstr (OpValue 8); RcvInstr "c"] [] [])
           0 (OpValue 8) 8 "c").
  - reflexivity.
  - reflexivity.
  - vm_compute. split; [discriminate | reflexivity].
  - reflexivity.
  - reflexivity.
  - reflexivity.
  - reflexivity.
  - split; [reflexivity | vm_compute; split; discriminate].
  - vm_compute. split; discriminate.
  - reflexivity.
Defined.
